(** * Recent searches store of the api-examples extension

    A shallow embedding of the recent-searches helper
    ([getRecentSearches], [setRecentSearches], [appendRecentSearchesStore],
    [clearRecentSearchesStore] and the [useRecentSearch] hook) together
    with the parts of the JavaScript run time the helper relies on:
    strings as sequences of UTF-16 code units, [JSON.parse],
    [JSON.stringify] on arrays of recent searches, [Date] with its ISO
    format, and the host's local storage. *)

From Stdlib Require Import ZArith NArith String Ascii Lia Sorted.
From stdpp Require Import base option list gmap.

Set Warnings "-register-all".

Local Open Scope N_scope.

(** ** Strings

    A JavaScript string is a finite sequence of 16-bit code units.  Nothing
    below depends on the upper bound of a unit, so a unit is an [N]. *)

Module JsString.

Definition jsstring := list N.

(** String literals of this file are written as Rocq strings; an
    apostrophe in the literal stands for the double quote (code unit 34),
    which keeps JSON texts readable. *)
Definition unit_of_ascii (a : ascii) : N :=
  let n := N_of_ascii a in if n =? 39 then 34 else n.

Definition js (s : string) : jsstring :=
  map unit_of_ascii (list_ascii_of_string s).

(** [s.length <= 0], and the truthiness of a string. *)
Definition is_empty (s : jsstring) : bool :=
  match s with [] => true | _ => false end.

End JsString.
Export JsString.

(** ** JSON values and [JSON.parse] *)

Module Json.

(** A number is kept as the exact decimal [mantissa * 10 ^ exponent] of its
    literal; the store only ever asks whether a number is truthy.  An object
    keeps its members in source order, duplicates included: the member a
    property read sees is the last one of that name. *)
Inductive JSON : Type :=
| JNull
| JBool (b : bool)
| JNumber (mantissa exponent : Z)
| JString (s : jsstring)
| JArray (elements : list JSON)
| JObject (members : list (jsstring * JSON)).

Definition is_ws (c : N) : bool :=
  (c =? 9) || (c =? 10) || (c =? 13) || (c =? 32).

Fixpoint skip_ws (s : jsstring) : jsstring :=
  match s with
  | c :: r => if is_ws c then skip_ws r else s
  | [] => []
  end.

Definition is_digit (c : N) : bool := (48 <=? c) && (c <=? 57).

Definition hex_value (c : N) : option N :=
  if is_digit c then Some (c - 48)
  else if (97 <=? c) && (c <=? 102) then Some (c - 87)
  else if (65 <=? c) && (c <=? 70) then Some (c - 55)
  else None.

Definition hex4 (h1 h2 h3 h4 : N) : option N :=
  match hex_value h1, hex_value h2, hex_value h3, hex_value h4 with
  | Some a, Some b, Some c, Some d => Some (((a * 16 + b) * 16 + c) * 16 + d)
  | _, _, _, _ => None
  end.

(** The single-character escapes: quote, backslash, slash, b, f, n, r, t. *)
Definition unescape (e : N) : option N :=
  if e =? 34 then Some 34
  else if e =? 92 then Some 92
  else if e =? 47 then Some 47
  else if e =? 98 then Some 8
  else if e =? 102 then Some 12
  else if e =? 110 then Some 10
  else if e =? 114 then Some 13
  else if e =? 116 then Some 9
  else None.

(** The characters of a string literal after its opening quote, up to and
    including the closing quote. *)
Fixpoint parse_chars (s : jsstring) : option (jsstring * jsstring) :=
  match s with
  | [] => None
  | c :: r =>
      if c =? 34 then Some ([], r)
      else if c =? 92 then
        match r with
        | [] => None
        | e :: r1 =>
            if e =? 117 then
              match r1 with
              | h1 :: h2 :: h3 :: h4 :: r2 =>
                  match hex4 h1 h2 h3 h4, parse_chars r2 with
                  | Some u, Some (str, rest) => Some (u :: str, rest)
                  | _, _ => None
                  end
              | _ => None
              end
            else
              match unescape e, parse_chars r1 with
              | Some u, Some (str, rest) => Some (u :: str, rest)
              | _, _ => None
              end
        end
      else if c <? 32 then None
      else
        match parse_chars r with
        | Some (str, rest) => Some (c :: str, rest)
        | None => None
        end
  end.

Fixpoint take_digits (s : jsstring) : list N * jsstring :=
  match s with
  | c :: r =>
      if is_digit c then let '(ds, rest) := take_digits r in (c - 48 :: ds, rest)
      else ([], s)
  | [] => ([], [])
  end.

Definition decimal (ds : list N) : Z :=
  fold_left (fun acc d => (acc * 10 + Z.of_N d)%Z) ds 0%Z.

(** The integer part of a number: a lone 0, or digits that do not start
    with 0. *)
Definition parse_int (s : jsstring) : option (list N * jsstring) :=
  match s with
  | c :: r =>
      if c =? 48 then Some ([0], r)
      else if is_digit c then Some (take_digits s)
      else None
  | [] => None
  end.

Definition parse_frac (s : jsstring) : option (list N * jsstring) :=
  match s with
  | c :: r =>
      if c =? 46 then
        match take_digits r with
        | ([], _) => None
        | (ds, rest) => Some (ds, rest)
        end
      else Some ([], s)
  | [] => Some ([], s)
  end.

Definition exp_digits (sign : Z) (r : jsstring) : option (Z * jsstring) :=
  match take_digits r with
  | ([], _) => None
  | (ds, rest) => Some ((sign * decimal ds)%Z, rest)
  end.

Definition parse_exp (s : jsstring) : option (Z * jsstring) :=
  match s with
  | c :: r =>
      if (c =? 101) || (c =? 69) then
        match r with
        | c' :: r1 =>
            if c' =? 43 then exp_digits 1 r1
            else if c' =? 45 then exp_digits (-1) r1
            else exp_digits 1 r
        | [] => None
        end
      else Some (0%Z, s)
  | [] => Some (0%Z, s)
  end.

Definition parse_sign (s : jsstring) : Z * jsstring :=
  match s with
  | c :: r => if c =? 45 then ((-1)%Z, r) else (1%Z, s)
  | [] => (1%Z, s)
  end.

Definition parse_number (s : jsstring) : option (JSON * jsstring) :=
  let '(sign, s1) := parse_sign s in
  '(ip, s2) ← parse_int s1;
  '(fp, s3) ← parse_frac s2;
  '(e, s4) ← parse_exp s3;
  Some (JNumber (sign * decimal (ip ++ fp)) (e - Z.of_nat (length fp)), s4).

Fixpoint strip_prefix (p s : jsstring) : option jsstring :=
  match p, s with
  | [], _ => Some s
  | a :: p', b :: s' => if a =? b then strip_prefix p' s' else None
  | _ :: _, [] => None
  end.

(** Recursive descent on the JSON grammar.  [fuel] bounds the number of
    nested calls; [JSON_parse] below gives enough of it for every text. *)
Fixpoint parse_value (fuel : nat) (s : jsstring) : option (JSON * jsstring) :=
  match fuel with
  | O => None
  | S fuel =>
      match skip_ws s with
      | [] => None
      | c :: r =>
          if c =? 34 then
            '(str, rest) ← parse_chars r; Some (JString str, rest)
          else if c =? 91 then
            match skip_ws r with
            | 93 :: rest => Some (JArray [], rest)
            | _ => '(vs, rest) ← parse_elements fuel r; Some (JArray vs, rest)
            end
          else if c =? 123 then
            match skip_ws r with
            | 125 :: rest => Some (JObject [], rest)
            | _ => '(ms, rest) ← parse_members fuel r; Some (JObject ms, rest)
            end
          else if c =? 116 then
            rest ← strip_prefix (js "rue") r; Some (JBool true, rest)
          else if c =? 102 then
            rest ← strip_prefix (js "alse") r; Some (JBool false, rest)
          else if c =? 110 then
            rest ← strip_prefix (js "ull") r; Some (JNull, rest)
          else parse_number (c :: r)
      end
  end
with parse_elements (fuel : nat) (s : jsstring) : option (list JSON * jsstring) :=
  match fuel with
  | O => None
  | S fuel =>
      '(v, s1) ← parse_value fuel s;
      match skip_ws s1 with
      | 44 :: s2 => '(vs, rest) ← parse_elements fuel s2; Some (v :: vs, rest)
      | 93 :: rest => Some ([v], rest)
      | _ => None
      end
  end
with parse_members (fuel : nat) (s : jsstring)
  : option (list (jsstring * JSON) * jsstring) :=
  match fuel with
  | O => None
  | S fuel =>
      match skip_ws s with
      | 34 :: s1 =>
          '(k, s2) ← parse_chars s1;
          match skip_ws s2 with
          | 58 :: s3 =>
              '(v, s4) ← parse_value fuel s3;
              match skip_ws s4 with
              | 44 :: s5 => '(ms, rest) ← parse_members fuel s5; Some ((k, v) :: ms, rest)
              | 125 :: rest => Some ([(k, v)], rest)
              | _ => None
              end
          | _ => None
          end
      | _ => None
      end
  end.

(** [JSON.parse]: [None] stands for the SyntaxError it throws. *)
Definition JSON_parse (text : jsstring) : option JSON :=
  '(v, rest) ← parse_value (2 * length text + 2) text;
  match skip_ws rest with
  | [] => Some v
  | _ => None
  end.

End Json.
Export Json.

(** ** Dates

    Time values are milliseconds since the epoch, in UTC.  The functions
    and their names are those of ECMAScript's Date section. *)

Module JsDate.

Local Open Scope Z_scope.

Definition msPerDay : Z := 86400000.
Definition maxTime : Z := 8640000000000000.

Definition Day (t : Z) : Z := t / msPerDay.
Definition TimeWithinDay (t : Z) : Z := t mod msPerDay.

Definition DaysInYear (y : Z) : Z :=
  if negb (y mod 4 =? 0) then 365
  else if negb (y mod 100 =? 0) then 366
  else if negb (y mod 400 =? 0) then 365
  else 366.

Definition DayFromYear (y : Z) : Z :=
  365 * (y - 1970) + (y - 1969) / 4 - (y - 1901) / 100 + (y - 1601) / 400.

(** The largest year whose first day is not after the day of [t]: an
    estimate from the mean length of a year, moved by one where needed. *)
Definition YearFromTime (t : Z) : Z :=
  let d := Day t in
  let y := 1970 + d * 400 / 146097 in
  if d <? DayFromYear y then y - 1
  else if DayFromYear (y + 1) <=? d then y + 1
  else y.

Definition InLeapYear (t : Z) : Z :=
  if DaysInYear (YearFromTime t) =? 366 then 1 else 0.

Definition DayWithinYear (t : Z) : Z := Day t - DayFromYear (YearFromTime t).

(** The number of days of a year before the month [m] (0 is January). *)
Definition DaysBeforeMonth (leap m : Z) : Z :=
  if m <=? 0 then 0
  else if m =? 1 then 31
  else if m =? 2 then 59 + leap
  else if m =? 3 then 90 + leap
  else if m =? 4 then 120 + leap
  else if m =? 5 then 151 + leap
  else if m =? 6 then 181 + leap
  else if m =? 7 then 212 + leap
  else if m =? 8 then 243 + leap
  else if m =? 9 then 273 + leap
  else if m =? 10 then 304 + leap
  else if m =? 11 then 334 + leap
  else 365 + leap.

Definition MonthFromTime (t : Z) : Z :=
  let d := DayWithinYear t in
  let leap := InLeapYear t in
  if d <? 31 then 0
  else if d <? 59 + leap then 1
  else if d <? 90 + leap then 2
  else if d <? 120 + leap then 3
  else if d <? 151 + leap then 4
  else if d <? 181 + leap then 5
  else if d <? 212 + leap then 6
  else if d <? 243 + leap then 7
  else if d <? 273 + leap then 8
  else if d <? 304 + leap then 9
  else if d <? 334 + leap then 10
  else 11.

Definition DateFromTime (t : Z) : Z :=
  DayWithinYear t - DaysBeforeMonth (InLeapYear t) (MonthFromTime t) + 1.

Definition HourFromTime (t : Z) : Z := (t / 3600000) mod 24.
Definition MinFromTime (t : Z) : Z := (t / 60000) mod 60.
Definition SecFromTime (t : Z) : Z := (t / 1000) mod 60.
Definition msFromTime (t : Z) : Z := t mod 1000.

Definition MakeTime (h m s ms : Z) : Z := h * 3600000 + m * 60000 + s * 1000 + ms.

(** [MakeDay] for a month in 0..11, which is all the parser asks of it. *)
Definition MakeDay (year month date : Z) : Z :=
  DayFromYear year
  + DaysBeforeMonth (if DaysInYear year =? 366 then 1 else 0) month
  + date - 1.

Definition MakeDate (day time : Z) : Z := day * msPerDay + time.

(** [None] is NaN. *)
Definition TimeClip (t : Z) : option Z :=
  if (- maxTime <=? t) && (t <=? maxTime) then Some t else None.

(** *** Date.prototype.toISOString *)

Definition digit_char (d : Z) : N := Z.to_N (48 + d).

Definition pad2 (n : Z) : jsstring := [digit_char (n / 10); digit_char (n mod 10)].
Definition pad3 (n : Z) : jsstring := digit_char (n / 100) :: pad2 (n mod 100).
Definition pad4 (n : Z) : jsstring := pad2 (n / 100) ++ pad2 (n mod 100).
Definition pad6 (n : Z) : jsstring := pad2 (n / 10000) ++ pad4 (n mod 10000).

(** Four digits for the years 0 to 9999, a sign and six digits otherwise. *)
Definition year_string (y : Z) : jsstring :=
  if (0 <=? y) && (y <=? 9999) then pad4 y
  else if y <? 0 then 45%N :: pad6 (- y)
  else 43%N :: pad6 y.

Definition toISOString (t : Z) : jsstring :=
  year_string (YearFromTime t)
  ++ [45%N] ++ pad2 (MonthFromTime t + 1)
  ++ [45%N] ++ pad2 (DateFromTime t)
  ++ [84%N] ++ pad2 (HourFromTime t)
  ++ [58%N] ++ pad2 (MinFromTime t)
  ++ [58%N] ++ pad2 (SecFromTime t)
  ++ [46%N] ++ pad3 (msFromTime t)
  ++ [90%N].

(** *** Date.parse

    [parse_utc] reads the instances of ECMAScript's date-time format that
    are in UTC whatever the local time zone is: a date alone, or a date and
    a time of day with seconds, with or without milliseconds, followed by
    Z.  Every field has to be in range. *)

Definition digit_value (c : N) : option Z :=
  if is_digit c then Some (Z.of_N c - 48) else None.

Definition num2 (a b : N) : option Z :=
  x ← digit_value a; y ← digit_value b; Some (10 * x + y).

Definition num3 (a b c : N) : option Z :=
  x ← digit_value a; y ← num2 b c; Some (100 * x + y).

Definition num4 (a b c d : N) : option Z :=
  x ← num2 a b; y ← num2 c d; Some (100 * x + y).

Definition num6 (a b c d e f : N) : option Z :=
  x ← num2 a b; y ← num4 c d e f; Some (10000 * x + y).

Definition parse_year (s : jsstring) : option (Z * jsstring) :=
  let expanded r :=
    match r with
    | a :: b :: c :: d :: e :: f :: rest => y ← num6 a b c d e f; Some (y, rest)
    | _ => None
    end in
  match s with
  | [] => None
  | sign :: r =>
      if (sign =? 43)%N then expanded r
      else if (sign =? 45)%N then
        '(y, rest) ← expanded r; if y =? 0 then None else Some (- y, rest)
      else
        match s with
        | a :: b :: c :: d :: rest => y ← num4 a b c d; Some (y, rest)
        | _ => None
        end
  end.

Definition DaysInMonth (year month : Z) : Z :=
  let leap := if DaysInYear year =? 366 then 1 else 0 in
  DaysBeforeMonth leap (month + 1) - DaysBeforeMonth leap month.

Definition make_utc (year month date h m s ms : Z) : option Z :=
  if (1 <=? month) && (month <=? 12)
     && (1 <=? date) && (date <=? DaysInMonth year (month - 1))
     && (h <=? 23) && (m <=? 59) && (s <=? 59)
  then TimeClip (MakeDate (MakeDay year (month - 1) date) (MakeTime h m s ms))
  else None.

Definition parse_time (s : jsstring) : option (Z * Z * Z * Z) :=
  match s with
  | [] => Some (0, 0, 0, 0)
  | 84%N :: h1 :: h2 :: 58%N :: m1 :: m2 :: 58%N :: s1 :: s2 :: tail =>
      h ← num2 h1 h2; m ← num2 m1 m2; sec ← num2 s1 s2;
      match tail with
      | [90%N] => Some (h, m, sec, 0)
      | [46%N; f1; f2; f3; 90%N] => ms ← num3 f1 f2 f3; Some (h, m, sec, ms)
      | _ => None
      end
  | _ => None
  end.

Definition parse_utc (s : jsstring) : option Z :=
  '(year, s1) ← parse_year s;
  match s1 with
  | 45%N :: m1 :: m2 :: 45%N :: d1 :: d2 :: s2 =>
      month ← num2 m1 m2; date ← num2 d1 d2;
      '(h, m, sec, ms) ← parse_time s2;
      make_utc year month date h m sec ms
  | _ => None
  end.

(** What [Date.parse] makes of any other string is left to the engine by
    ECMAScript, and of a time without Z to the local time zone: [fallback]
    stands for both. *)
Definition Date_parse (fallback : jsstring -> option Z) (s : jsstring) : option Z :=
  match parse_utc s with
  | Some t => Some t
  | None => fallback s
  end.

(** A Date object; its time value is [None] for an Invalid Date. *)
Record Date : Type := { time_value : option Z }.

(** [new Date(s)] for a string [s]. *)
Definition new_Date_string (fallback : jsstring -> option Z) (s : jsstring) : Date :=
  {| time_value := Date_parse fallback s ≫= TimeClip |}.

(** [new Date()] at the time [now]. *)
Definition new_Date_now (now : Z) : Date := {| time_value := Some now |}.

End JsDate.
Export JsDate.

(** ** [JSON.stringify] on an array of recent searches *)

Record RecentSearch : Type := { text : jsstring; timestamp : Date }.

Module JsonStringify.

Definition hex_char (d : N) : N := if d <? 10 then 48 + d else 87 + d.

Definition unicode_escape (c : N) : jsstring :=
  [92; 117; hex_char (c / 4096); hex_char (c / 256 mod 16);
   hex_char (c / 16 mod 16); hex_char (c mod 16)].

Definition is_high_surrogate (c : N) : bool := (55296 <=? c) && (c <=? 56319).
Definition is_low_surrogate (c : N) : bool := (56320 <=? c) && (c <=? 57343).

(** One code point that is not a surrogate pair. *)
Definition quote_unit (c : N) : jsstring :=
  if c =? 8 then [92; 98]
  else if c =? 9 then [92; 116]
  else if c =? 10 then [92; 110]
  else if c =? 12 then [92; 102]
  else if c =? 13 then [92; 114]
  else if c =? 34 then [92; 34]
  else if c =? 92 then [92; 92]
  else if (c <? 32) || is_high_surrogate c || is_low_surrogate c
  then unicode_escape c
  else [c].

(** A surrogate pair is copied; a lone surrogate is escaped. *)
Fixpoint quote_chars (s : jsstring) : jsstring :=
  match s with
  | [] => []
  | c :: r =>
      match r with
      | d :: r' =>
          if is_high_surrogate c && is_low_surrogate d
          then c :: d :: quote_chars r'
          else quote_unit c ++ quote_chars r
      | [] => quote_unit c
      end
  end.

Definition QuoteJSONString (s : jsstring) : jsstring :=
  [34] ++ quote_chars s ++ [34].

(** [Date.prototype.toJSON]: the ISO string, or null for an Invalid Date. *)
Definition Date_toJSON (d : Date) : jsstring :=
  match time_value d with
  | Some t => QuoteJSONString (toISOString t)
  | None => js "null"
  end.

Definition stringify_search (r : RecentSearch) : jsstring :=
  js "{'text':" ++ QuoteJSONString (text r)
  ++ js ",'timestamp':" ++ Date_toJSON (timestamp r) ++ js "}".

Fixpoint commas (parts : list jsstring) : jsstring :=
  match parts with
  | [] => []
  | p :: ps =>
      match ps with
      | [] => p
      | _ :: _ => p ++ [44] ++ commas ps
      end
  end.

Definition JSON_stringify (recentSearches : list RecentSearch) : jsstring :=
  [91] ++ commas (map stringify_search recentSearches) ++ [93].

End JsonStringify.
Export JsonStringify.

(** ** The host: local storage, clock and failures *)

Module Host.

Inductive Error : Type := HostError | SyntaxError | TypeError.

Inductive Result (A : Type) : Type :=
| Ok (a : A)
| Throw (e : Error).
Arguments Ok {A} a.
Arguments Throw {A} e.

#[export] Instance Result_ret : MRet Result := @Ok.
#[export] Instance Result_bind : MBind Result := fun A B f r =>
  match r with
  | Ok a => f a
  | Throw e => Throw e
  end.

(** A value of the local storage is a string, a number or a boolean; a
    number is kept as the string its [toString] gives. *)
Inductive LocalStorageValue : Type :=
| LSString (s : jsstring)
| LSNumber (rendering : jsstring)
| LSBoolean (b : bool).

Definition toString (v : LocalStorageValue) : jsstring :=
  match v with
  | LSString s => s
  | LSNumber rendering => rendering
  | LSBoolean true => js "true"
  | LSBoolean false => js "false"
  end.

(** What the next call of the host takes and whether it fails. *)
Record HostEvent : Type := { elapsed : N; fails : bool }.

(** [schedule] is the fate of the coming calls of the host, in the order
    of the calls; past its end, calls take no time and succeed.  The host
    serves the calls in the order they are issued.  [unhandled] collects the
    rejections of the promises that nobody awaits. *)
Record World : Type := {
  storage : gmap jsstring LocalStorageValue;
  now : Z;
  schedule : list HostEvent;
  unhandled : list Error
}.

(** An asynchronous function: run from a world, it resolves to a value or
    rejects with an error, in a new world. *)
Definition M (A : Type) : Type := World -> Result A * World.

#[export] Instance M_ret : MRet M := fun A a w => (Ok a, w).
#[export] Instance M_bind : MBind M := fun A B f m w =>
  match m w with
  | (Ok a, w') => f a w'
  | (Throw e, w') => (Throw e, w')
  end.

Definition lift {A} (r : Result A) : M A := fun w => (r, w).

Definition try_catch {A} (body : M A) (handler : Error -> M A) : M A := fun w =>
  match body w with
  | (Ok a, w') => (Ok a, w')
  | (Throw e, w') => handler e w'
  end.

(** A call whose promise is dropped: it runs, and its rejection reaches
    nobody. *)
Definition not_awaited (m : M unit) : M unit := fun w =>
  match m w with
  | (Ok _, w') => (Ok (), w')
  | (Throw e, w') =>
      (Ok (), {| storage := storage w'; now := now w'; schedule := schedule w';
                 unhandled := e :: unhandled w' |})
  end.

Definition host_call (w : World) : bool * World :=
  match schedule w with
  | [] => (false, w)
  | ev :: evs =>
      (fails ev,
       {| storage := storage w; now := (now w + Z.of_N (elapsed ev))%Z;
          schedule := evs; unhandled := unhandled w |})
  end.

Definition with_storage (f : gmap jsstring LocalStorageValue -> gmap jsstring LocalStorageValue)
    (w : World) : World :=
  {| storage := f (storage w); now := now w; schedule := schedule w;
     unhandled := unhandled w |}.

Definition getLocalStorageItem (key : jsstring) : M (option LocalStorageValue) := fun w =>
  let '(failed, w1) := host_call w in
  if failed then (Throw HostError, w1) else (Ok (storage w1 !! key), w1).

Definition setLocalStorageItem (key : jsstring) (value : LocalStorageValue) : M unit := fun w =>
  let '(failed, w1) := host_call w in
  if failed then (Throw HostError, w1) else (Ok (), with_storage (insert key value) w1).

Definition removeLocalStorageItem (key : jsstring) : M unit := fun w =>
  let '(failed, w1) := host_call w in
  if failed then (Throw HostError, w1) else (Ok (), with_storage (delete key) w1).

End Host.
Export Host.

(** ** The store *)

Module Store.

(** A JavaScript value read off a parsed payload; [None] is undefined. *)
Definition Value := option JSON.

(** Whether the double nearest to [m * 10 ^ e] is zero. *)
Definition number_is_zero (m e : Z) : bool :=
  ((m =? 0) || ((e <? 0) && (Z.abs m * 2 ^ 1075 <=? 10 ^ (- e))))%Z.

Definition truthy (v : Value) : bool :=
  match v with
  | None => false
  | Some JNull => false
  | Some (JBool b) => b
  | Some (JNumber m e) => negb (number_is_zero m e)
  | Some (JString s) => negb (is_empty s)
  | Some (JArray _) => true
  | Some (JObject _) => true
  end.

(** [v || undefined] *)
Definition or_undefined (v : Value) : Value := if truthy v then v else None.

(** The string [v] is when [typeof v === "string"]. *)
Definition as_string (v : Value) : option jsstring :=
  match v with
  | Some (JString s) => Some s
  | _ => None
  end.

Definition lookup_member (name : jsstring) (members : list (jsstring * JSON)) : Value :=
  fold_left (fun found m => if decide (m.1 = name) then Some m.2 else found)
            members None.

(** [r.name] for the names text and timestamp, which no prototype defines:
    reading a property of null throws. *)
Definition Get (r : JSON) (name : jsstring) : Result Value :=
  match r with
  | JNull => Throw TypeError
  | JObject members => Ok (lookup_member name members)
  | _ => Ok None
  end.

Definition JSON_parse_or_throw (payload : jsstring) : Result JSON :=
  match JSON_parse payload with
  | Some json => Ok json
  | None => Throw SyntaxError
  end.

(** How the statements of a block end: by a return, or by falling through. *)
Inductive Completion (A : Type) : Type :=
| Return (a : A)
| Normal.
Arguments Return {A} a.
Arguments Normal {A}.

Section Engine.

Variable fallback : jsstring -> option Z.

(** The body of the loop of [getRecentSearches] at the element [r]; a
    [continue] leaves [result] as it is. *)
Definition iteration (result : list RecentSearch) (r : JSON) : Result (list RecentSearch) :=
  t0 ← Get r (js "text");
  let t := or_undefined t0 in
  let text := as_string t in
  if (match text with Some s => is_empty s | None => false end) then Ok result
  else
    ts0 ← Get r (js "timestamp");
    let ts := or_undefined ts0 in
    match as_string ts with
    | None => Ok result
    | Some s =>
        let timestamp := new_Date_string fallback s in
        match text with
        | Some tx =>
            if negb (is_empty tx)
            then Ok (result ++ [{| text := tx; timestamp := timestamp |}])
            else Ok result
        | None => Ok result
        end
    end.

Fixpoint for_of (json : list JSON) (result : list RecentSearch) : Result (list RecentSearch) :=
  match json with
  | [] => Ok result
  | r :: rest => result' ← iteration result r; for_of rest result'
  end.

Definition getRecentSearches_try (key : jsstring) : M (Completion (list RecentSearch)) :=
  store ← getLocalStorageItem key;
  let payload := toString <$> store in
  match payload with
  | Some ((_ :: _) as payload) =>
      json ← lift (JSON_parse_or_throw payload);
      if truthy (Some json) then
        match json with
        | JArray elements => result ← lift (for_of elements []); mret (Return result)
        | _ => mret (Return [])
        end
      else mret Normal
  | _ => mret Normal
  end.

Definition getRecentSearches (key : jsstring) : M (option (list RecentSearch)) :=
  c ← try_catch (getRecentSearches_try key) (fun _ => mret Normal);
  match c with
  | Return result => mret (Some result)
  | Normal => mret (Some [])
  end.

Definition clearRecentSearchesStore (key : jsstring) : M unit :=
  removeLocalStorageItem key.

Definition setRecentSearches (key : jsstring) (recentSearches : list RecentSearch) : M unit :=
  let payload := JSON_stringify recentSearches in
  setLocalStorageItem key (LSString payload).

Definition appendRecentSearchesStore (key : jsstring) (search : RecentSearch) : M unit :=
  data ← getRecentSearches key;
  match data with
  | Some ((_ :: _) as data) =>
      let freshData := take 20 ([search] ++ data) in
      not_awaited (setRecentSearches key freshData)
  | _ => not_awaited (setRecentSearches key [search])
  end.

(** [dispatchAppend] of [useRecentSearch], for a hook without
    [setSearchText]: the entry is stamped with the time of the call. *)
Definition dispatchAppend (key text : jsstring) : M unit := fun w =>
  appendRecentSearchesStore key {| text := text; timestamp := new_Date_now (now w) |} w.

End Engine.

End Store.
Export Store.

(** ** The hook [useRecentSearch] *)

Module Hook.

Local Open Scope Z_scope.










Section Engine.

Variable fallback : jsstring -> option Z.
Variable key : jsstring.

















End Engine.






End Hook.
Export Hook.

(** ** What the operations amount to

    Closed forms of the operations, which the theorems below relate to the
    code. *)

Module Model.

Definition next_fails (w : World) : bool := (host_call w).1.
Definition after_call (w : World) : World := (host_call w).2.

Definition add_unhandled (e : Error) (w : World) : World :=
  {| storage := storage w; now := now w; schedule := schedule w;
     unhandled := e :: unhandled w |}.

(** No call of the host fails. *)
Definition no_failures (w : World) : bool :=
  forallb (fun ev => negb (fails ev)) (schedule w).

Definition total_elapsed (evs : list HostEvent) : Z :=
  foldr (fun ev acc => (Z.of_N (elapsed ev) + acc)%Z) 0%Z evs.

(** The clock shows a time value, and still does after the scheduled calls. *)
Definition clock_ok (w : World) : bool :=
  ((- maxTime <=? now w) && (now w + total_elapsed (schedule w) <=? maxTime))%Z.

(** Fuel [m] is at least twice the number of units between [s] and [rest],
    less one. *)
Definition enough (s rest : jsstring) (m : nat) : Prop :=
  (2 * (length s - length rest) <= m + 1)%nat.

Definition cons_char (c : N) (r : option (jsstring * jsstring))
  : option (jsstring * jsstring) :=
  match r with
  | Some (str, rest) => Some (c :: str, rest)
  | None => None
  end.

(** The JSON value [JSON.stringify] writes for a Date and for an entry. *)
Definition json_of_date (d : Date) : JSON :=
  match time_value d with
  | Some t => JString (toISOString t)
  | None => JNull
  end.

Definition json_of_search (r : RecentSearch) : JSON :=
  JObject [(js "text", JString (text r)); (js "timestamp", json_of_date (timestamp r))].

Definition has_time (r : RecentSearch) : bool :=
  match time_value (timestamp r) with
  | Some _ => true
  | None => false
  end.

(** A Date as the constructors make them: its time value, when it has one,
    is in the range of time values. *)
Definition clipped (d : Date) : Prop :=
  match time_value d with
  | Some t => (- maxTime <= t <= maxTime)%Z
  | None => True
  end.

(** An entry as [getRecentSearches] returns them. *)
Definition acceptable (r : RecentSearch) : Prop :=
  text r <> [] /\ clipped (timestamp r).

(** An entry that is read back as it was written. *)
Definition well_formed (r : RecentSearch) : Prop :=
  acceptable r /\ has_time r = true.

Section Engine.

Variable fallback : jsstring -> option Z.

(** The entry [getRecentSearches] makes of an element that is not null. *)
Definition accept (r : JSON) : option RecentSearch :=
  match r with
  | JObject members =>
      match lookup_member (js "text") members, lookup_member (js "timestamp") members with
      | Some (JString tx), Some (JString ts) =>
          if is_empty tx || is_empty ts then None
          else Some {| text := tx; timestamp := new_Date_string fallback ts |}
      | _, _ => None
      end
  | _ => None
  end.

(** The entries [getRecentSearches] makes of a stored value. *)
Definition entries_of (stored : option LocalStorageValue) : list RecentSearch :=
  match toString <$> stored with
  | Some ((_ :: _) as payload) =>
      match JSON_parse payload with
      | Some (JArray elements) =>
          match for_of fallback elements [] with
          | Ok result => result
          | Throw _ => []
          end
      | _ => []
      end
  | _ => []
  end.

Definition loaded (key : jsstring) (w : World) : list RecentSearch :=
  if next_fails w then [] else entries_of (storage w !! key).

(** What is left of an entry once it is written and read back. *)
Definition reload1 (r : RecentSearch) : option RecentSearch :=
  if is_empty (text r) then None
  else
    match time_value (timestamp r) with
    | Some t =>
        Some {| text := text r; timestamp := new_Date_string fallback (toISOString t) |}
    | None => None
    end.

Definition reload (l : list RecentSearch) : list RecentSearch := omap reload1 l.

(** The world after [appendRecentSearchesStore key search]. *)
Definition appended (key : jsstring) (search : RecentSearch) (w : World) : World :=
  let w1 := after_call w in
  let fresh := take 20 (search :: loaded key w) in
  if next_fails w1 then add_unhandled HostError (after_call w1)
  else with_storage (insert key (LSString (JSON_stringify fresh))) (after_call w1).

(** Successive calls of [dispatchAppend], each awaited. *)
Fixpoint append_all (key : jsstring) (texts : list jsstring) : M unit :=
  match texts with
  | [] => mret ()
  | text :: texts => dispatchAppend fallback key text ≫= fun _ => append_all key texts
  end.

(** [append] then [load]. *)
Definition append_then_load (key text : jsstring) : M (option (list RecentSearch)) :=
  dispatchAppend fallback key text ≫= fun _ => getRecentSearches fallback key.

End Engine.

(** An engine whose [Date.parse] knows the ISO format only. *)
Definition iso_only : jsstring -> option Z := fun _ => None.

Definition payload_C1 : jsstring :=
  js "[{'text':'a'},{'timestamp':'2020-01-01'},{'text':'b','timestamp':'not-a-date'},{'text':'c','timestamp':'2021-01-01T00:00:00Z'}]".

(** A world that stores [value] under [key], at the time [t]. *)
Definition world_with (key : jsstring) (value : LocalStorageValue) (t : Z)
    (evs : list HostEvent) : World :=
  {| storage := {[ key := value ]}; now := t; schedule := evs; unhandled := [] |}.

Definition empty_world (t : Z) (evs : list HostEvent) : World :=
  {| storage := ∅; now := t; schedule := evs; unhandled := [] |}.

(** Twenty-one texts, a to u, and as many entries. *)
Definition texts21 : list jsstring := map (fun i => [97 + N.of_nat i]) (seq 0 21).

Definition entries21 : list RecentSearch :=
  map (fun tx => {| text := tx; timestamp := new_Date_now 0 |}) texts21.

(** The payload of [entries21] with one more element, given as JSON text,
    at its end. *)
Definition payload21_and (element : jsstring) : jsstring :=
  removelast (JSON_stringify entries21) ++ [44] ++ element ++ [93].

End Model.
Export Model.

(** ** The views: [NoSearchItem], [SearchItem] and [RecentSearchesList] *)

Module View.

(** What choosing an action of a row calls. *)
Inductive OnAction : Type :=
| CallSetSearchText (text : jsstring) (noDelay : bool)
| CallHandleClear.

(** An [ActionPanel.Item]. *)
Record ActionPanelItem : Type := { action_title : jsstring; onAction : OnAction }.

(** A [List.Item], with the key its parent gives it. *)
Record ListItem : Type := {
  item_key : option jsstring;
  title : jsstring;
  accessoryTitle : option jsstring;
  actions : list ActionPanelItem
}.

(** What [RecentSearchesList] renders: the list that only shows that it is
    loading, or the list with its one section. *)
Inductive ListView : Type :=
| LoadingList (searchBarPlaceholder : jsstring)
| SectionList (isLoading : option bool) (throttle : bool)
              (section_title : jsstring) (rows : list ListItem).

(** The screen: the host, and how often [popToRoot] was called. *)
Record Screen : Type := { host : World; popToRoot_calls : nat }.

Definition NoSearchItem (recentQueries : option (list RecentSearch)) : option ListItem :=
  match recentQueries with
  | Some (_ :: _) => None
  | _ =>
      Some {| item_key := None; title := js "No Recent Searches";
              accessoryTitle := None; actions := [] |}
  end.

(** [handleClear] of [SearchItem], for the [clearAll] of its props. *)
Definition handleClear (clearAll : option (M unit)) (s : Screen) : Result unit * Screen :=
  match clearAll with
  | Some clear =>
      match clear (host s) with
      | (Ok _, w) =>
          (Ok (), {| host := w; popToRoot_calls := S (popToRoot_calls s) |})
      | (Throw e, w) =>
          (Throw e, {| host := w; popToRoot_calls := popToRoot_calls s |})
      end
  | None => (Ok (), s)
  end.

(** [clearAllRecentSearches] of [useRecentSearch]. *)
Definition clearAllRecentSearches (key : jsstring) : M unit :=
  clearRecentSearchesStore key.

Section Locale.

(** [Date.prototype.toLocaleString], which is up to the engine and the
    locale. *)
Variable toLocaleString : Date -> jsstring.

Definition SearchItem (search : RecentSearch) (clearAll : bool) : ListItem :=
  {| item_key := None;
     title := text search;
     accessoryTitle := Some (toLocaleString (timestamp search));
     actions :=
       {| action_title := js "Search Again";
          onAction := CallSetSearchText (text search) true |}
       :: (if clearAll
           then [{| action_title := js "Clear old searches";
                    onAction := CallHandleClear |}]
           else []) |}.

Definition with_key (k : jsstring) (item : ListItem) : ListItem :=
  {| item_key := Some k; title := title item;
     accessoryTitle := accessoryTitle item; actions := actions item |}.

Definition RecentSearchesList (recentSearches : option (list RecentSearch))
    (isLoading : option bool) (clearAll : bool) : ListView :=
  let rq := recentSearches in
  match isLoading, rq with
  | Some true, None => LoadingList (js "Loading")
  | _, _ =>
      SectionList isLoading true (js "Recently Searched")
        (option_list (NoSearchItem rq)
         ++ match rq with
            | Some qs =>
                map (fun q =>
                       with_key (toLocaleString (timestamp q) ++ text q)
                                (SearchItem q clearAll)) qs
            | None => []
            end)
  end.

End Locale.

End View.
Export View.

(** ** The link of [AppPicker] *)

Module AppPicker.

(** The first occurrence of [pattern] in [s]: what is before it and what is
    after it. *)
Fixpoint find (pattern s : jsstring) : option (jsstring * jsstring) :=
  match strip_prefix pattern s with
  | Some rest => Some ([], rest)
  | None =>
      match s with
      | [] => None
      | c :: s' =>
          match find pattern s' with
          | Some (before, rest) => Some (c :: before, rest)
          | None => None
          end
      end
  end.

(** The replacement text for a match of a pattern that is a string, so
    that there are no captures: [$$] is a dollar, [$&] the match, [$`] what
    is before it and [$'] what is after it; any other dollar is itself. *)
Fixpoint GetSubstitution (matched before rest template : jsstring) : jsstring :=
  match template with
  | [] => []
  | c :: r =>
      if c =? 36 then
        match r with
        | d :: r' =>
            if d =? 36 then 36 :: GetSubstitution matched before rest r'
            else if d =? 38 then matched ++ GetSubstitution matched before rest r'
            else if d =? 96 then before ++ GetSubstitution matched before rest r'
            else if d =? 39 then rest ++ GetSubstitution matched before rest r'
            else 36 :: GetSubstitution matched before rest r
        | [] => [36]
        end
      else c :: GetSubstitution matched before rest r
  end.

(** [s.replace(pattern, replacement)] for two strings. *)
Definition String_replace (s pattern replacement : jsstring) : jsstring :=
  match find pattern s with
  | Some (before, rest) =>
      before ++ GetSubstitution pattern before rest replacement ++ rest
  | None => s
  end.

Definition placeholder : jsstring := [123; 113; 117; 101; 114; 121; 125].

Section Engine.

(** [String.prototype.toLowerCase], which follows the Unicode tables of the
    engine. *)
Variable toLowerCase : jsstring -> jsstring.

(** The link the effect of [AppPicker] sets for the [link] of the
    preferences and the [query] typed. *)
Definition linkToOpen (link query : jsstring) : jsstring :=
  String_replace (toLowerCase link) placeholder query.

End Engine.

(** Lower case for the letters A to Z alone. *)
Definition ascii_lower (s : jsstring) : jsstring :=
  map (fun c => if (65 <=? c) && (c <=? 90) then c + 32 else c) s.

End AppPicker.
Export AppPicker.

(** ** More closed forms *)

Module Coverage.

(** Whether an entry is read back once it is written. *)
Definition survives (r : RecentSearch) : bool :=
  negb (is_empty (text r)) && has_time r.

(** [a] is no older than [b]. *)
Definition no_older (a b : RecentSearch) : Prop :=
  exists ta tb,
    time_value (timestamp a) = Some ta /\ time_value (timestamp b) = Some tb
    /\ (tb <= ta)%Z.

(** [r] has a time, which is not after [t]. *)
Definition not_after (t : Z) (r : RecentSearch) : Prop :=
  exists tr, time_value (timestamp r) = Some tr /\ (tr <= t)%Z.

(** The most recent entry first, and none from after [t]. *)
Definition recent_first (t : Z) (l : list RecentSearch) : Prop :=
  StronglySorted no_older l /\ Forall (not_after t) l.

(** A member whose name is neither text nor timestamp. *)
Definition other_member (m : jsstring * JSON) : Prop :=
  m.1 <> js "text" /\ m.1 <> js "timestamp".

Definition payload_with_null : jsstring :=
  js "[{'text':'a','timestamp':'2020-01-01'},null]".

End Coverage.
Export Coverage.

(** * Properties *)

Ltac div_lia := Z.div_mod_to_equations; lia.
Ltac ndiv_lia := zify; Z.to_euclidean_division_equations; lia.

(** ** The run time on known values *)

Section Examples.

Example toISOString_epoch : toISOString 0 = js "1970-01-01T00:00:00.000Z".
Proof. reflexivity. Qed.

Example toISOString_leap_day : toISOString 951782400000 = js "2000-02-29T00:00:00.000Z".
Proof. reflexivity. Qed.

Example toISOString_before_epoch : toISOString (-1) = js "1969-12-31T23:59:59.999Z".
Proof. reflexivity. Qed.

Example toISOString_first : toISOString (- maxTime) = js "-271821-04-20T00:00:00.000Z".
Proof. reflexivity. Qed.

Example toISOString_last : toISOString maxTime = js "+275760-09-13T00:00:00.000Z".
Proof. reflexivity. Qed.

Example parse_utc_date_only : parse_utc (js "2020-01-01") = Some 1577836800000%Z.
Proof. reflexivity. Qed.

Example parse_utc_no_such_day : parse_utc (js "2021-02-29") = None.
Proof. reflexivity. Qed.

Example JSON_parse_values :
  JSON_parse (js " [1, -2.50e3, true, null, {'a' : [ ], 'a' : {}}, 'A\u0041\n'] ")
  = Some (JArray [JNumber 1 0; JNumber (-250) 1; JBool true; JNull;
                  JObject [(js "a", JArray []); (js "a", JObject [])];
                  JString [65; 65; 10]]).
Proof. reflexivity. Qed.

Example JSON_parse_rejects :
  map JSON_parse [js "[1,]"; js "01"; js "{'a'}"; js "'a"; js "[1] x"; js ""; js "1."]
  = [None; None; None; None; None; None; None].
Proof. reflexivity. Qed.

Example lookup_member_last :
  lookup_member (js "a") [(js "a", JNull); (js "b", JBool true); (js "a", JBool false)]
  = Some (JBool false).
Proof. reflexivity. Qed.

Example JSON_stringify_entry :
  JSON_stringify [ {| text := js "say 'hi'\"; timestamp := new_Date_now 0 |};
                   {| text := [9; 55357; 56832; 55357];
                      timestamp := {| time_value := None |} |} ]
  = js "[{'text':'say \'hi\'\\','timestamp':'1970-01-01T00:00:00.000Z'},{'text':'\t"
      ++ [55357; 56832] ++ js "\ud83d','timestamp':null}]".
Proof. reflexivity. Qed.

End Examples.

Section LoadFacts.

Variable fallback : jsstring -> option Z.

Lemma storage_after_call w : storage (after_call w) = storage w.
Proof. unfold after_call, host_call. by destruct (schedule w). Qed.

Lemma host_call_eq w : host_call w = (next_fails w, after_call w).
Proof. unfold next_fails, after_call. by destruct (host_call w). Qed.

Lemma getRecentSearches_eq key w :
  getRecentSearches fallback key w = (Ok (Some (loaded fallback key w)), after_call w).
Proof.
  unfold getRecentSearches, getRecentSearches_try, loaded, entries_of.
  unfold mbind, M_bind, try_catch, getLocalStorageItem, lift, JSON_parse_or_throw.
  rewrite host_call_eq, storage_after_call.
  destruct (next_fails w); [done|].
  destruct (storage w !! key) as [v|]; simpl; [|done].
  destruct (toString v) as [|c payload]; [done|].
  destruct (JSON_parse (c :: payload)) as [json|]; [|done].
  destruct json as [| [] | m e | [] | elements | members]; simpl; try done.
  - by destruct (number_is_zero m e).
  - by destruct (for_of fallback elements []).
Qed.

Lemma iteration_accept result r :
  r <> JNull ->
  iteration fallback result r = Ok (result ++ option_list (accept fallback r)).
Proof.
  intros Hr. unfold iteration, accept, Get.
  destruct r as [| b | m e | s | elements | members]; try done;
    cbn [mbind Result_bind or_undefined truthy as_string option_list];
    rewrite ?app_nil_r; try done.
  destruct (lookup_member (js "text") members) as [[| [] | m e | [|c tx] | |]|];
    destruct (lookup_member (js "timestamp") members) as [[| [] | m' e' | [|c' ts] | |]|];
    unfold or_undefined, truthy;
    repeat match goal with
           | |- context [number_is_zero ?a ?b] => destruct (number_is_zero a b)
           end;
    cbn [as_string is_empty negb orb option_list];
    rewrite ?app_nil_r; done.
Qed.

Lemma for_of_accept elements : forall result,
  Forall (fun r => r <> JNull) elements ->
  for_of fallback elements result = Ok (result ++ omap (accept fallback) elements).
Proof.
  induction elements as [|r elements IH]; intros result Hall.
  - by rewrite app_nil_r.
  - inversion Hall as [|?? Hr Hrest]; subst. cbn [for_of omap].
    rewrite iteration_accept by done. cbn [mbind Result_bind].
    rewrite IH by done. rewrite <- app_assoc. do 2 f_equal.
    simpl. by destruct (accept fallback r).
Qed.

(** A null element ends the loop with a TypeError, which the handler of
    [getRecentSearches] turns into the empty array. *)
Lemma for_of_null elements : forall result,
  JNull ∈ elements -> for_of fallback elements result = Throw TypeError.
Proof.
  induction elements as [|r elements IH]; intros result Hin.
  - by apply not_elem_of_nil in Hin.
  - cbn [for_of]. assert (r = JNull \/ r <> JNull) as [->|Hr] by (destruct r; auto).
    + done.
    + rewrite iteration_accept by done. cbn [mbind Result_bind]. apply IH.
      apply elem_of_cons in Hin as [Heq|Hin]; [by subst|done].
Qed.

End LoadFacts.

(** ** The fuel of [JSON_parse] *)

Section FuelFacts.

Lemma skip_ws_length s : (length (skip_ws s) <= length s)%nat.
Proof.
  induction s as [|c s IH]; [done|]. cbn [skip_ws].
  destruct (is_ws c); cbn [length]; lia.
Qed.

Lemma parse_chars_length_aux n : forall (s str rest : jsstring),
  (length s <= n)%nat ->
  parse_chars s = Some (str, rest) -> (length rest < length s)%nat.
Proof.
  induction n as [|n IH]; intros [|c r] str rest Hn; try done; try (cbn in Hn; lia).
  cbn [parse_chars]. cbn [length] in Hn.
  destruct (c =? 34); [intros [= _ <-]; cbn; lia|].
  destruct (c =? 92).
  - destruct r as [|e r1]; [done|]. destruct (e =? 117).
    + destruct r1 as [|h1 [|h2 [|h3 [|h4 r2]]]]; try done.
      destruct (hex4 h1 h2 h3 h4); [|done].
      destruct (parse_chars r2) as [[str' rest']|] eqn:E; [|done].
      intros [= _ <-]. apply IH in E; cbn in *; lia.
    + destruct (unescape e); [|done].
      destruct (parse_chars r1) as [[str' rest']|] eqn:E; [|done].
      intros [= _ <-]. apply IH in E; cbn in *; lia.
  - destruct (c <? 32); [done|].
    destruct (parse_chars r) as [[str' rest']|] eqn:E; [|done].
    intros [= _ <-]. apply IH in E; cbn in *; lia.
Qed.

Lemma parse_chars_length (s str rest : jsstring) :
  parse_chars s = Some (str, rest) -> (length rest < length s)%nat.
Proof. by apply (parse_chars_length_aux (length s)). Qed.

Lemma take_digits_length s : forall ds rest,
  take_digits s = (ds, rest) -> (length rest <= length s)%nat.
Proof.
  induction s as [|c s IH]; intros ds rest; cbn [take_digits].
  - by intros [= _ <-].
  - destruct (is_digit c); [|by intros [= _ <-]].
    destruct (take_digits s) as [ds' rest'] eqn:E. intros [= _ <-].
    specialize (IH _ _ eq_refl). cbn. lia.
Qed.

Lemma parse_int_length s ip rest :
  parse_int s = Some (ip, rest) -> (length rest < length s)%nat.
Proof.
  unfold parse_int. destruct s as [|c r]; [done|].
  destruct (c =? 48); [intros [= _ <-]; cbn; lia|].
  destruct (is_digit c) eqn:Ec; [|done]. cbn [take_digits]. rewrite Ec.
  destruct (take_digits r) as [ds rest'] eqn:E. intros [= _ <-].
  apply take_digits_length in E. cbn. lia.
Qed.

Lemma parse_frac_length s fp rest :
  parse_frac s = Some (fp, rest) -> (length rest <= length s)%nat.
Proof.
  unfold parse_frac. destruct s as [|c r]; [by intros [= _ <-]|].
  destruct (c =? 46); [|by intros [= _ <-]].
  destruct (take_digits r) as [[|d ds] rest'] eqn:E; [done|].
  intros [= _ <-]. apply take_digits_length in E. cbn. lia.
Qed.

Lemma exp_digits_length sign r e rest :
  exp_digits sign r = Some (e, rest) -> (length rest <= length r)%nat.
Proof.
  unfold exp_digits. destruct (take_digits r) as [[|d ds] rest'] eqn:E; [done|].
  intros [= _ <-]. by apply take_digits_length in E.
Qed.

Lemma parse_exp_length s e rest :
  parse_exp s = Some (e, rest) -> (length rest <= length s)%nat.
Proof.
  unfold parse_exp. destruct s as [|c r]; [by intros [= _ <-]|].
  destruct (_ || _); [|by intros [= _ <-]].
  destruct r as [|c' r1]; [done|].
  destruct (c' =? 43); [|destruct (c' =? 45)];
    intros H%exp_digits_length; cbn in *; lia.
Qed.

Lemma parse_sign_length s : (length (parse_sign s).2 <= length s)%nat.
Proof.
  unfold parse_sign. destruct s as [|c r]; [done|]. destruct (c =? 45); cbn; lia.
Qed.

Lemma parse_number_length s v rest :
  parse_number s = Some (v, rest) -> (length rest < length s)%nat.
Proof.
  unfold parse_number. pose proof (parse_sign_length s) as Hsign.
  destruct (parse_sign s) as [sign s1]. cbn [snd] in Hsign.
  destruct (parse_int s1) as [[ip s2]|] eqn:E1; [|done]. cbn [mbind option_bind].
  destruct (parse_frac s2) as [[fp s3]|] eqn:E2; [|done]. cbn [mbind option_bind].
  destruct (parse_exp s3) as [[e s4]|] eqn:E3; [|done]. cbn [mbind option_bind].
  intros [= _ <-]. apply parse_int_length in E1. apply parse_frac_length in E2.
  apply parse_exp_length in E3. lia.
Qed.

Lemma strip_prefix_length p : forall s rest,
  strip_prefix p s = Some rest -> (length rest <= length s)%nat.
Proof.
  induction p as [|a p IH]; intros s rest; cbn [strip_prefix].
  - by intros [= <-].
  - destruct s as [|b s]; [done|]. destruct (a =? b); [|done].
    intros H%IH. cbn. lia.
Qed.

(** Fuel is no restriction: what some fuel parses, any fuel that is
    [enough] for the units read parses as well. *)
Lemma parse_fuel n :
  (forall s v rest,
      parse_value n s = Some (v, rest) ->
      (length rest < length s)%nat
      /\ forall m, enough s rest m -> parse_value m s = Some (v, rest))
  /\ (forall s vs rest,
        parse_elements n s = Some (vs, rest) ->
        (length rest < length s)%nat
        /\ forall m, enough s rest m -> parse_elements m s = Some (vs, rest))
  /\ (forall s ms rest,
        parse_members n s = Some (ms, rest) ->
        (length rest < length s)%nat
        /\ forall m, enough s rest m -> parse_members m s = Some (ms, rest)).
Proof.
  unfold enough.
  induction n as [|n (IHv & IHe & IHm)]; [done|]. split; [|split].
  - intros s v rest. cbn [parse_value].
    pose proof (skip_ws_length s) as Hws.
    destruct (skip_ws s) as [|c r] eqn:Es; [done|]. cbn [length] in Hws.
    destruct (c =? 34) eqn:E34.
    { destruct (parse_chars r) as [[str rest']|] eqn:E; [|done].
      cbn [mbind option_bind]. intros [= <- <-].
      pose proof (parse_chars_length _ _ _ E). split; [lia|].
      intros [|m] Hm; [lia|]. cbn [parse_value]. by rewrite Es, E34, E. }
    destruct (c =? 91) eqn:E91.
    { pose proof (skip_ws_length r) as Hwr.
      assert (Hcase :
        (exists rest', skip_ws r = 93 :: rest')
        \/ match skip_ws r with 93 :: _ => False | _ => True end).
      { destruct (skip_ws r) as [|c' r']; [by right|].
        destruct c' as [|p]; [by right|].
        do 7 (destruct p as [p|p|]; try (by right)). left. by eexists. }
      destruct Hcase as [[rest' Er]|Hne].
      - rewrite Er in *. intros [= ? ?]; subst. cbn [length] in Hwr. split; [lia|].
        intros [|m] Hm; [lia|]. cbn [parse_value]. by rewrite Es, E34, E91, Er.
      - assert (Hstep : forall k,
          match skip_ws r with
          | 93 :: rest0 => Some (JArray [], rest0)
          | _ => '(vs, rest0) ← parse_elements k r; Some (JArray vs, rest0)
          end = '(vs, rest0) ← parse_elements k r; Some (JArray vs, rest0)).
        { intros k. destruct (skip_ws r) as [|c' r']; [done|].
          destruct c' as [|p]; [done|].
          repeat (destruct p as [p|p|]; try done). }
        rewrite Hstep.
        destruct (parse_elements n r) as [[vs rest']|] eqn:E; [|done].
        cbn [mbind option_bind]. intros [= <- <-].
        apply IHe in E as [Hlen Hfuel]. split; [lia|].
        intros [|m] Hm; [lia|]. cbn [parse_value]. rewrite Es, E34, E91, Hstep.
        rewrite Hfuel by lia. done. }
    destruct (c =? 123) eqn:E123.
    { pose proof (skip_ws_length r) as Hwr.
      assert (Hcase :
        (exists rest', skip_ws r = 125 :: rest')
        \/ match skip_ws r with 125 :: _ => False | _ => True end).
      { destruct (skip_ws r) as [|c' r']; [by right|].
        destruct c' as [|p]; [by right|].
        do 7 (destruct p as [p|p|]; try (by right)). left. by eexists. }
      destruct Hcase as [[rest' Er]|Hne].
      - rewrite Er in *. intros [= ? ?]; subst. cbn [length] in Hwr. split; [lia|].
        intros [|m] Hm; [lia|]. cbn [parse_value]. by rewrite Es, E34, E91, E123, Er.
      - assert (Hstep : forall k,
          match skip_ws r with
          | 125 :: rest0 => Some (JObject [], rest0)
          | _ => '(ms, rest0) ← parse_members k r; Some (JObject ms, rest0)
          end = '(ms, rest0) ← parse_members k r; Some (JObject ms, rest0)).
        { intros k. destruct (skip_ws r) as [|c' r']; [done|].
          destruct c' as [|p]; [done|].
          repeat (destruct p as [p|p|]; try done). }
        rewrite Hstep.
        destruct (parse_members n r) as [[ms rest']|] eqn:E; [|done].
        cbn [mbind option_bind]. intros [= <- <-].
        apply IHm in E as [Hlen Hfuel]. split; [lia|].
        intros [|m] Hm; [lia|]. cbn [parse_value]. rewrite Es, E34, E91, E123, Hstep.
        rewrite Hfuel by lia. done. }
    assert (Hlit : forall p (v0 : JSON),
      (rest' ← strip_prefix p r; Some (v0, rest')) = Some (v, rest) ->
      (length rest < length s)%nat).
    { intros p v0. destruct (strip_prefix p r) as [rest'|] eqn:E; [|done].
      cbn [mbind option_bind]. intros [= _ <-].
      apply strip_prefix_length in E. lia. }
    destruct (c =? 116) eqn:E116.
    { intros H. split; [by eapply Hlit|].
      intros [|m] Hm; [apply Hlit in H; lia|].
      cbn [parse_value]. by rewrite Es, E34, E91, E123, E116. }
    destruct (c =? 102) eqn:E102.
    { intros H. split; [by eapply Hlit|].
      intros [|m] Hm; [apply Hlit in H; lia|].
      cbn [parse_value]. by rewrite Es, E34, E91, E123, E116, E102. }
    destruct (c =? 110) eqn:E110.
    { intros H. split; [by eapply Hlit|].
      intros [|m] Hm; [apply Hlit in H; lia|].
      cbn [parse_value]. by rewrite Es, E34, E91, E123, E116, E102, E110. }
    intros H. pose proof (parse_number_length _ _ _ H) as Hlen. cbn [length] in Hlen.
    split; [lia|]. intros [|m] Hm; [lia|].
    cbn [parse_value]. by rewrite Es, E34, E91, E123, E116, E102, E110.
  - intros s vs rest. cbn [parse_elements].
    destruct (parse_value n s) as [[v s1]|] eqn:E; [|done]. cbn [mbind option_bind].
    apply IHv in E as [Hlen Hfuel].
    pose proof (skip_ws_length s1) as Hws.
    destruct (skip_ws s1) as [|c s2] eqn:Es; [done|]. cbn [length] in Hws.
    destruct c as [|p]; [done|].
    repeat (destruct p as [p|p|]; try done).
    + intros [= <- <-]. split; [lia|].
      intros [|m] Hm; [lia|]. cbn [parse_elements].
      rewrite Hfuel by lia. cbn [mbind option_bind]. by rewrite Es.
    + destruct (parse_elements n s2) as [[vs' rest']|] eqn:E'; [|done].
      cbn [mbind option_bind]. intros [= <- <-].
      apply IHe in E' as [Hlen' Hfuel']. split; [lia|].
      intros [|m] Hm; [lia|]. cbn [parse_elements].
      rewrite Hfuel by lia. cbn [mbind option_bind]. rewrite Es.
      rewrite Hfuel' by lia. done.
  - intros s ms rest. cbn [parse_members].
    pose proof (skip_ws_length s) as Hws0.
    destruct (skip_ws s) as [|c0 s1] eqn:Es0; [done|]. cbn [length] in Hws0.
    destruct c0 as [|p]; [done|].
    repeat (destruct p as [p|p|]; try done).
    destruct (parse_chars s1) as [[k s2]|] eqn:Ek; [|done]. cbn [mbind option_bind].
    pose proof (parse_chars_length _ _ _ Ek) as Hk.
    pose proof (skip_ws_length s2) as Hws2.
    destruct (skip_ws s2) as [|c2 s3] eqn:Es2; [done|]. cbn [length] in Hws2.
    destruct c2 as [|p]; [done|].
    repeat (destruct p as [p|p|]; try done).
    destruct (parse_value n s3) as [[v s4]|] eqn:E; [|done]. cbn [mbind option_bind].
    apply IHv in E as [Hlen Hfuel].
    pose proof (skip_ws_length s4) as Hws4.
    destruct (skip_ws s4) as [|c4 s5] eqn:Es4; [done|]. cbn [length] in Hws4.
    destruct c4 as [|p]; [done|].
    repeat (destruct p as [p|p|]; try done).
    + intros [= <- <-]. split; [lia|].
      intros [|m] Hm; [lia|]. cbn [parse_members].
      rewrite Es0, Ek. cbn [mbind option_bind]. rewrite Es2.
      rewrite Hfuel by lia. cbn [mbind option_bind]. by rewrite Es4.
    + destruct (parse_members n s5) as [[ms' rest']|] eqn:E'; [|done].
      cbn [mbind option_bind]. intros [= <- <-].
      apply IHm in E' as [Hlen' Hfuel']. split; [lia|].
      intros [|m] Hm; [lia|]. cbn [parse_members].
      rewrite Es0, Ek. cbn [mbind option_bind]. rewrite Es2.
      rewrite Hfuel by lia. cbn [mbind option_bind]. rewrite Es4.
      rewrite Hfuel' by lia. done.
Qed.

(** [JSON_parse] gives [parse_value] all the fuel a text can need. *)
Lemma JSON_parse_fuel n text v rest :
  parse_value n text = Some (v, rest) ->
  parse_value (2 * length text + 2) text = Some (v, rest).
Proof.
  intros H. destruct (parse_fuel n) as (Hv & _ & _).
  apply Hv in H as [_ H]. apply H. unfold enough. lia.
Qed.

Lemma JSON_parse_complete n text v rest :
  parse_value n text = Some (v, rest) -> skip_ws rest = [] ->
  JSON_parse text = Some v.
Proof.
  intros H Hrest. unfold JSON_parse. rewrite (JSON_parse_fuel _ _ _ _ H).
  cbn [mbind option_bind]. by rewrite Hrest.
Qed.

End FuelFacts.

(** ** The ISO format of dates: [Date.parse] undoes [toISOString] *)

Section DateFacts.

Local Open Scope Z_scope.

Lemma DaysInYear_eq y : DaysInYear y = DayFromYear (y + 1) - DayFromYear y.
Proof.
  unfold DaysInYear, DayFromYear.
  destruct (Z.eqb_spec (y mod 4) 0), (Z.eqb_spec (y mod 100) 0), (Z.eqb_spec (y mod 400) 0);
    simpl; div_lia.
Qed.

Lemma YearFromTime_spec t :
  DayFromYear (YearFromTime t) <= Day t < DayFromYear (YearFromTime t + 1).
Proof.
  unfold YearFromTime. set (d := Day t). clearbody d.
  set (y := 1970 + d * 400 / 146097).
  assert (Hy : 146097 * (y - 1970) <= d * 400 < 146097 * (y - 1970) + 146097)
    by (unfold y; div_lia).
  clearbody y.
  destruct (Z.ltb_spec d (DayFromYear y)) as [H1|H1].
  - unfold DayFromYear in *. replace (y - 1 + 1) with y by lia. div_lia.
  - destruct (Z.leb_spec (DayFromYear (y + 1)) d) as [H2|H2].
    + unfold DayFromYear in *. div_lia.
    + lia.
Qed.

Lemma DayFromYear_lt y1 y2 : y1 < y2 -> DayFromYear y1 < DayFromYear y2.
Proof. intros H. unfold DayFromYear. div_lia. Qed.

(** [YearFromTime t] is the largest year that starts no later than [t]. *)
Lemma YearFromTime_largest t y :
  DayFromYear y <= Day t -> y <= YearFromTime t.
Proof.
  intros Hy. pose proof (YearFromTime_spec t) as [_ Hnext].
  destruct (Z.le_gt_cases y (YearFromTime t)) as [|Hgt]; [done|].
  assert (YearFromTime t + 1 = y \/ YearFromTime t + 1 < y) as [<-|Hlt] by lia; [lia|].
  apply DayFromYear_lt in Hlt. lia.
Qed.

Lemma YearFromTime_range t :
  - maxTime <= t <= maxTime -> -271821 <= YearFromTime t <= 275760.
Proof.
  intros Ht. pose proof (YearFromTime_spec t) as H.
  assert (Hd : -100000000 <= Day t <= 100000000)
    by (unfold Day, msPerDay, maxTime in *; div_lia).
  revert H. generalize (YearFromTime t) (Day t) Hd. clear.
  intros y d Hd. unfold DayFromYear. div_lia.
Qed.

Lemma DayWithinYear_range t :
  0 <= DayWithinYear t < DaysInYear (YearFromTime t).
Proof.
  unfold DayWithinYear. rewrite DaysInYear_eq.
  pose proof (YearFromTime_spec t). lia.
Qed.

Lemma DaysInYear_cases y : DaysInYear y = 365 \/ DaysInYear y = 366.
Proof.
  unfold DaysInYear.
  destruct (negb _); [auto|]. destruct (negb _); [auto|]. destruct (negb _); auto.
Qed.

Lemma digit_value_digit_char d :
  0 <= d <= 9 -> digit_value (digit_char d) = Some d.
Proof.
  intros Hd. unfold digit_value, digit_char, is_digit.
  destruct (N.leb_spec 48 (Z.to_N (48 + d))); [|lia].
  destruct (N.leb_spec (Z.to_N (48 + d)) 57); [|lia].
  simpl. f_equal. lia.
Qed.

Lemma num2_pad2 n :
  0 <= n < 100 -> num2 (digit_char (n / 10)) (digit_char (n mod 10)) = Some n.
Proof.
  intros Hn. unfold num2.
  rewrite !digit_value_digit_char by div_lia. simpl. f_equal. div_lia.
Qed.

Lemma num3_pad3 n :
  0 <= n < 1000 ->
  num3 (digit_char (n / 100)) (digit_char (n mod 100 / 10))
       (digit_char ((n mod 100) mod 10)) = Some n.
Proof.
  intros Hn. unfold num3.
  rewrite digit_value_digit_char by div_lia.
  rewrite num2_pad2 by div_lia.
  simpl. f_equal. div_lia.
Qed.

Lemma num4_pad4 n :
  0 <= n < 10000 ->
  num4 (digit_char (n / 100 / 10)) (digit_char ((n / 100) mod 10))
       (digit_char (n mod 100 / 10)) (digit_char ((n mod 100) mod 10)) = Some n.
Proof.
  intros Hn. unfold num4.
  rewrite !num2_pad2 by div_lia.
  simpl. f_equal. div_lia.
Qed.

Lemma num6_pad6 n :
  0 <= n < 1000000 ->
  num6 (digit_char (n / 10000 / 10)) (digit_char ((n / 10000) mod 10))
       (digit_char (n mod 10000 / 100 / 10)) (digit_char ((n mod 10000 / 100) mod 10))
       (digit_char ((n mod 10000) mod 100 / 10))
       (digit_char (((n mod 10000) mod 100) mod 10)) = Some n.
Proof.
  intros Hn. unfold num6.
  rewrite num2_pad2 by div_lia.
  rewrite num4_pad4 by div_lia.
  simpl. f_equal. div_lia.
Qed.

Lemma digit_char_range d : 0 <= d <= 9 -> (48 <= digit_char d <= 57)%N.
Proof. unfold digit_char. lia. Qed.

Lemma parse_year_year_string y rest :
  -999999 <= y <= 999999 ->
  parse_year (year_string y ++ rest) = Some (y, rest).
Proof.
  intros Hy. unfold year_string.
  destruct (Z.leb_spec 0 y); simpl.
  - destruct (Z.leb_spec y 9999); simpl.
    + pose proof (digit_char_range (y / 100 / 10) ltac:(div_lia)) as Hc.
      unfold parse_year. cbn [pad4 pad2 app].
      destruct (N.eqb_spec (digit_char (y / 100 / 10)) 43); [lia|].
      destruct (N.eqb_spec (digit_char (y / 100 / 10)) 45); [lia|].
      by rewrite num4_pad4 by lia.
    + destruct (Z.ltb_spec y 0); [lia|].
      unfold parse_year. cbn [pad6 pad4 pad2 app N.eqb Pos.eqb].
      by rewrite num6_pad6 by lia.
  - destruct (Z.ltb_spec y 0); [|lia].
    unfold parse_year. cbn [pad6 pad4 pad2 app N.eqb Pos.eqb].
    rewrite num6_pad6 by lia. simpl.
    destruct (Z.eqb_spec (- y) 0); [lia|]. do 2 f_equal. lia.
Qed.

Lemma InLeapYear_eq t : DaysInYear (YearFromTime t) = 365 + InLeapYear t.
Proof.
  unfold InLeapYear. destruct (DaysInYear_cases (YearFromTime t)) as [->| ->]; done.
Qed.

Lemma month_date_spec t :
  let leap := InLeapYear t in
  let m := MonthFromTime t in
  let d := DateFromTime t in
  0 <= m <= 11
  /\ 1 <= d <= DaysBeforeMonth leap (m + 1) - DaysBeforeMonth leap m
  /\ DaysBeforeMonth leap m + d - 1 = DayWithinYear t.
Proof.
  pose proof (DayWithinYear_range t) as Hd. rewrite InLeapYear_eq in Hd.
  assert (Hl : InLeapYear t = 0 \/ InLeapYear t = 1)
    by (unfold InLeapYear; destruct (_ =? _); auto).
  unfold DateFromTime, MonthFromTime.
  generalize dependent (DayWithinYear t). generalize dependent (InLeapYear t).
  intros leap Hl d Hd.
  cbv zeta.
  repeat match goal with
         | |- context [d <? ?b] =>
             destruct (Z.ltb_spec d b); [unfold DaysBeforeMonth; simpl; lia|]
         end.
  unfold DaysBeforeMonth; simpl; lia.
Qed.

Lemma time_of_day_spec t :
  0 <= HourFromTime t <= 23 /\ 0 <= MinFromTime t <= 59
  /\ 0 <= SecFromTime t <= 59 /\ 0 <= msFromTime t <= 999
  /\ MakeTime (HourFromTime t) (MinFromTime t) (SecFromTime t) (msFromTime t)
     = TimeWithinDay t.
Proof.
  unfold HourFromTime, MinFromTime, SecFromTime, msFromTime, MakeTime,
    TimeWithinDay, msPerDay.
  div_lia.
Qed.

Lemma parse_utc_toISOString t :
  - maxTime <= t <= maxTime -> parse_utc (toISOString t) = Some t.
Proof.
  intros Ht.
  pose proof (YearFromTime_range t Ht) as Hy.
  destruct (month_date_spec t) as (Hm & Hd & Hday).
  destruct (time_of_day_spec t) as (Hh & Hmi & Hs & Hms & Htime).
  assert (Hd' : 1 <= DateFromTime t <= 31).
  { revert Hd. generalize (DateFromTime t).
    assert (Hl : InLeapYear t = 0 \/ InLeapYear t = 1)
      by (unfold InLeapYear; destruct (_ =? _); auto).
    revert Hm. generalize (MonthFromTime t). intros m Hm d.
    assert (m = 0 \/ m = 1 \/ m = 2 \/ m = 3 \/ m = 4 \/ m = 5 \/ m = 6 \/ m = 7
            \/ m = 8 \/ m = 9 \/ m = 10 \/ m = 11) as Hcases by lia.
    destruct Hl as [-> | ->];
    repeat (destruct Hcases as [-> | Hcases]; [unfold DaysBeforeMonth; simpl; lia|]);
      subst; unfold DaysBeforeMonth; simpl; lia. }
  unfold parse_utc, toISOString.
  rewrite parse_year_year_string by lia.
  cbn [mbind option_bind app pad2 pad3].
  rewrite !num2_pad2 by lia.
  cbn [mbind option_bind parse_time].
  rewrite !num2_pad2 by lia.
  cbn [mbind option_bind].
  rewrite num3_pad3 by lia.
  cbn [mbind option_bind].
  unfold make_utc, DaysInMonth.
  replace (MonthFromTime t + 1 - 1) with (MonthFromTime t) by lia.
  fold (InLeapYear t).
  repeat match goal with
         | |- context [?a <=? ?b] => destruct (Z.leb_spec a b); [|lia]
         end.
  cbn [andb].
  unfold MakeDay. fold (InLeapYear t).
  replace (DayFromYear (YearFromTime t)
           + DaysBeforeMonth (InLeapYear t) (MonthFromTime t) + DateFromTime t - 1)
    with (Day t) by (unfold DayWithinYear in Hday; lia).
  rewrite Htime. unfold MakeDate, Day, TimeWithinDay, TimeClip.
  replace (t / msPerDay * msPerDay + t mod msPerDay) with t
    by (unfold msPerDay; div_lia).
  destruct (Z.leb_spec (- maxTime) t); [|lia].
  destruct (Z.leb_spec t maxTime); [|lia]. done.
Qed.

End DateFacts.

(** ** Strings: [JSON.parse] undoes the quoting of [JSON.stringify] *)

Section QuoteFacts.

Lemma hex_value_hex_char d : d < 16 -> hex_value (hex_char d) = Some d.
Proof.
  intros Hd. unfold hex_value, hex_char, is_digit.
  destruct (N.ltb_spec d 10).
  - destruct (N.leb_spec 48 (48 + d)); [|lia].
    destruct (N.leb_spec (48 + d) 57); [|lia]. simpl. f_equal. lia.
  - destruct (N.leb_spec 48 (87 + d)); [|lia].
    destruct (N.leb_spec (87 + d) 57); [lia|]. simpl.
    destruct (N.leb_spec 97 (87 + d)); [|lia].
    destruct (N.leb_spec (87 + d) 102); [|lia]. simpl. f_equal. lia.
Qed.

Lemma hex4_unicode_escape c :
  c < 65536 ->
  hex4 (hex_char (c / 4096)) (hex_char (c / 256 mod 16))
       (hex_char (c / 16 mod 16)) (hex_char (c mod 16)) = Some c.
Proof.
  intros Hc. unfold hex4.
  rewrite !hex_value_hex_char by ndiv_lia. f_equal. ndiv_lia.
Qed.

Lemma parse_chars_plain c tail :
  c <> 34 -> c <> 92 -> 32 <= c ->
  parse_chars (c :: tail) = cons_char c (parse_chars tail).
Proof.
  intros H1 H2 H3. simpl.
  destruct (N.eqb_spec c 34); [done|].
  destruct (N.eqb_spec c 92); [done|].
  destruct (N.ltb_spec c 32); [lia|]. done.
Qed.

Lemma parse_chars_quote_unit c tail :
  parse_chars (quote_unit c ++ tail) = cons_char c (parse_chars tail).
Proof.
  unfold quote_unit.
  repeat match goal with
         | |- context [c =? ?k] =>
             destruct (N.eqb_spec c k);
             [subst; simpl; by destruct (parse_chars tail) as [[??]|]|]
         end.
  destruct (_ || _) eqn:E.
  - assert (c < 65536).
    { unfold is_high_surrogate, is_low_surrogate in E.
      destruct (N.ltb_spec c 32); [lia|].
      destruct (N.leb_spec c 56319); [lia|].
      destruct (N.leb_spec c 57343); [lia|].
      rewrite !andb_false_r in E. done. }
    unfold unicode_escape. cbn [app parse_chars N.eqb Pos.eqb].
    rewrite hex4_unicode_escape by done.
    by destruct (parse_chars tail) as [[??]|].
  - apply orb_false_iff in E as [E _]. apply orb_false_iff in E as [E _].
    apply N.ltb_ge in E. by apply parse_chars_plain.
Qed.

Lemma parse_chars_quote_chars_aux n : forall s rest : jsstring,
  (length s <= n)%nat ->
  parse_chars (quote_chars s ++ 34 :: rest) = Some (s, rest).
Proof.
  induction n as [|n IH]; intros [|c r] rest Hn; simpl in Hn; try done; try lia.
  assert (Hr : parse_chars (quote_chars r ++ 34 :: rest) = Some (r, rest))
    by (apply IH; lia).
  cbn [quote_chars]. destruct r as [|d r'].
  - rewrite parse_chars_quote_unit. done.
  - destruct (is_high_surrogate c && is_low_surrogate d) eqn:E.
    + apply andb_true_iff in E as [Ec Ed].
      unfold is_high_surrogate in Ec. unfold is_low_surrogate in Ed.
      apply andb_true_iff in Ec as [Ec1 Ec2]. apply andb_true_iff in Ed as [Ed1 Ed2].
      apply N.leb_le in Ec1, Ec2, Ed1, Ed2.
      cbn [app]. rewrite !parse_chars_plain by lia.
      rewrite IH by (simpl in Hn; lia). done.
    + rewrite <- app_assoc, parse_chars_quote_unit, Hr. done.
Qed.

Lemma parse_chars_quote_chars (s rest : jsstring) :
  parse_chars (quote_chars s ++ 34 :: rest) = Some (s, rest).
Proof. by apply (parse_chars_quote_chars_aux (length s)). Qed.

End QuoteFacts.

(** ** [JSON.parse] of what [JSON.stringify] writes *)

Section ParseFacts.

Lemma parse_value_string n r :
  parse_value (S n) (34 :: r)
  = match parse_chars r with
    | Some (str, rest) => Some (JString str, rest)
    | None => None
    end.
Proof. simpl. by destruct (parse_chars r) as [[??]|]. Qed.

Lemma parse_value_quoted n s rest :
  parse_value (S n) (QuoteJSONString s ++ rest) = Some (JString s, rest).
Proof.
  unfold QuoteJSONString. rewrite <- !app_assoc.
  change ([34] ++ quote_chars s ++ [34] ++ rest) with (34 :: quote_chars s ++ 34 :: rest).
  by rewrite parse_value_string, parse_chars_quote_chars.
Qed.

Lemma parse_value_date n d rest :
  parse_value (S n) (Date_toJSON d ++ 125 :: rest) = Some (json_of_date d, 125 :: rest).
Proof.
  unfold Date_toJSON, json_of_date. destruct (time_value d) as [t|].
  - apply parse_value_quoted.
  - reflexivity.
Qed.

Lemma parse_value_object n r :
  parse_value (S n) (123 :: 34 :: r)
  = match parse_members n (34 :: r) with
    | Some (ms, rest) => Some (JObject ms, rest)
    | None => None
    end.
Proof. simpl. by destruct (parse_members n (34 :: r)) as [[??]|]. Qed.

Lemma parse_members_step n k rest :
  parse_members (S n) (34 :: quote_chars k ++ 34 :: 58 :: rest)
  = match parse_value n rest with
    | Some (v, s4) =>
        match skip_ws s4 with
        | 44 :: s5 =>
            match parse_members n s5 with
            | Some (ms, rest') => Some ((k, v) :: ms, rest')
            | None => None
            end
        | 125 :: rest' => Some ([(k, v)], rest')
        | _ => None
        end
    | None => None
    end.
Proof.
  cbn [parse_members skip_ws is_ws N.eqb Pos.eqb orb].
  rewrite parse_chars_quote_chars.
  cbn [mbind option_bind skip_ws is_ws N.eqb Pos.eqb orb].
  destruct (parse_value n rest) as [[v s4]|]; [|done].
  cbn [mbind option_bind].
  destruct (skip_ws s4) as [|c s5]; [done|].
  destruct c as [|p]; [done|].
  do 7 (destruct p as [p|p|]; try done).
  all: by destruct (parse_members n _) as [[??]|].
Qed.

Lemma stringify_search_eq r rest :
  stringify_search r ++ rest
  = 123 :: 34 :: quote_chars (js "text") ++ 34 :: 58 :: QuoteJSONString (text r)
      ++ 44 :: 34 :: quote_chars (js "timestamp") ++ 34 :: 58 :: Date_toJSON (timestamp r)
      ++ 125 :: rest.
Proof.
  unfold stringify_search. rewrite <- !app_assoc. reflexivity.
Qed.

Lemma parse_value_search n r rest :
  parse_value (4 + n) (stringify_search r ++ rest) = Some (json_of_search r, rest).
Proof.
  rewrite stringify_search_eq.
  change (4 + n)%nat with (S (S (S (S n)))).
  rewrite parse_value_object, parse_members_step, parse_value_quoted.
  cbn [skip_ws is_ws N.eqb Pos.eqb orb].
  rewrite parse_members_step, parse_value_date.
  reflexivity.
Qed.

Lemma parse_elements_commas l : forall n rest,
  l <> [] ->
  parse_elements (length l + 4 + n) (commas (map stringify_search l) ++ 93 :: rest)
  = Some (map json_of_search l, rest).
Proof.
  induction l as [|r l IH]; intros n rest Hl; [done|].
  replace (length (r :: l) + 4 + n)%nat with (S (4 + (length l + n))) by (simpl; lia).
  cbn [parse_elements map commas].
  destruct l as [|r2 l].
  - cbn [map]. rewrite parse_value_search. reflexivity.
  - cbn [map]. rewrite <- !app_assoc. rewrite parse_value_search.
    cbn [mbind option_bind app skip_ws is_ws N.eqb Pos.eqb orb].
    replace (4 + (length (r2 :: l) + n))%nat with (length (r2 :: l) + 4 + n)%nat by lia.
    change (stringify_search r2 :: map stringify_search l)
      with (map stringify_search (r2 :: l)).
    rewrite IH by done. reflexivity.
Qed.

Lemma stringify_search_head r rest : exists tail, stringify_search r ++ rest = 123 :: tail.
Proof. rewrite stringify_search_eq. eauto. Qed.

Lemma length_commas l : (length l <= length (commas (map stringify_search l)))%nat.
Proof.
  induction l as [|r l IH]; [done|].
  destruct (stringify_search_head r []) as [tail Hr]. rewrite app_nil_r in Hr.
  destruct l as [|r2 l].
  - cbn [map commas]. rewrite Hr. simpl. lia.
  - change (commas (map stringify_search (r :: r2 :: l)))
      with (stringify_search r ++ [44] ++ commas (map stringify_search (r2 :: l))).
    rewrite !length_app, Hr. simpl in *. lia.
Qed.

Lemma JSON_parse_stringify l :
  JSON_parse (JSON_stringify l) = Some (JArray (map json_of_search l)).
Proof.
  destruct l as [|r l]; [reflexivity|].
  unfold JSON_parse, JSON_stringify.
  set (body := commas (map stringify_search (r :: l))).
  pose proof (length_commas (r :: l)) as Hlen. fold body in Hlen.
  assert (Hhead : exists tail, body ++ [93] = 123 :: tail).
  { unfold body. destruct l as [|r2 l].
    - apply stringify_search_head.
    - change (commas (map stringify_search (r :: r2 :: l)))
        with (stringify_search r ++ [44] ++ commas (map stringify_search (r2 :: l))).
      rewrite <- app_assoc. apply stringify_search_head. }
  destruct Hhead as [tail Htail].
  cbn [app length]. rewrite length_app. cbn [length].
  replace (2 * S (length body + 1) + 2)%nat
    with (S (length (r :: l) + 4 + (2 * length body + 1 - length (r :: l))))%nat by lia.
  cbn [parse_value skip_ws is_ws N.eqb Pos.eqb orb].
  rewrite Htail. cbn [skip_ws is_ws N.eqb Pos.eqb orb]. rewrite <- Htail.
  unfold body. rewrite parse_elements_commas by done. reflexivity.
Qed.

End ParseFacts.

(** ** The store: writing and reading back *)

Section StoreFacts.

Variable fallback : jsstring -> option Z.

Lemma toISOString_not_empty t : is_empty (toISOString t) = false.
Proof.
  unfold toISOString. destruct (year_string (YearFromTime t)); done.
Qed.

Lemma accept_json_of_search r :
  accept fallback (json_of_search r) = reload1 fallback r.
Proof.
  unfold accept, json_of_search, reload1, json_of_date.
  change (lookup_member (js "text") [(js "text", ?a); (js "timestamp", ?b)]) with (Some a).
  change (lookup_member (js "timestamp") [(js "text", ?a); (js "timestamp", ?b)]) with (Some b).
  destruct (time_value (timestamp r)) as [t|].
  - rewrite toISOString_not_empty, orb_false_r. done.
  - by destruct (is_empty (text r)).
Qed.

Lemma omap_accept_json_of_search l :
  omap (accept fallback) (map json_of_search l) = reload fallback l.
Proof.
  unfold reload. induction l as [|r l IH]; [done|].
  cbn [map omap list_omap]. rewrite accept_json_of_search.
  destruct (reload1 fallback r); cbn [omap list_omap] in *; by rewrite IH.
Qed.

Lemma entries_of_stringify l :
  entries_of fallback (Some (LSString (JSON_stringify l))) = reload fallback l.
Proof.
  unfold entries_of. cbn [fmap option_fmap option_map toString].
  destruct (JSON_stringify l) as [|c payload] eqn:E; [done|].
  rewrite <- E, JSON_parse_stringify, for_of_accept.
  - apply omap_accept_json_of_search.
  - apply Forall_forall. intros x [r [-> _]]%list_elem_of_fmap. done.
Qed.

Lemma new_Date_string_toISOString t :
  (- maxTime <= t <= maxTime)%Z ->
  new_Date_string fallback (toISOString t) = {| time_value := Some t |}.
Proof.
  intros Ht. unfold new_Date_string, Date_parse.
  rewrite parse_utc_toISOString by done. cbn [mbind option_bind]. unfold TimeClip.
  destruct (Z.leb_spec (- maxTime) t); [|lia].
  destruct (Z.leb_spec t maxTime); [|lia]. done.
Qed.

Lemma reload1_acceptable r :
  acceptable r -> reload1 fallback r = if has_time r then Some r else None.
Proof.
  intros [Htext Hclip]. unfold reload1, has_time. unfold clipped in Hclip.
  destruct r as [tx [[t|]]]; cbn in *.
  - destruct tx; [done|]. cbn. by rewrite new_Date_string_toISOString.
  - by destruct tx.
Qed.

Lemma reload_acceptable l :
  Forall acceptable l -> reload fallback l = filter (fun r => has_time r = true) l.
Proof.
  induction 1 as [|r l Hr _ IH]; [done|].
  unfold reload in *. cbn [omap list_omap]. rewrite reload1_acceptable by done.
  destruct (has_time r) eqn:E.
  - rewrite filter_cons_True by done. by rewrite IH.
  - rewrite filter_cons_False by (by rewrite E). done.
Qed.

Lemma clipped_new_Date_string s : clipped (new_Date_string fallback s).
Proof.
  unfold clipped, new_Date_string. cbn.
  destruct (Date_parse fallback s) as [t|]; [|done]. cbn. unfold TimeClip.
  destruct (Z.leb_spec (- maxTime) t); [|done].
  destruct (Z.leb_spec t maxTime); [|done]. cbn. lia.
Qed.

Lemma accept_acceptable r e : accept fallback r = Some e -> acceptable e.
Proof.
  unfold accept. destruct r as [| | | | |members]; try done.
  destruct (lookup_member _ members) as [[| | |tx| |]|]; try done.
  destruct (lookup_member _ members) as [[| | |ts| |]|]; try done.
  destruct tx; [done|]. destruct ts; [done|]. intros [= <-].
  split; [done|]. apply clipped_new_Date_string.
Qed.

Lemma for_of_acceptable elements : forall result result',
  Forall acceptable result ->
  for_of fallback elements result = Ok result' -> Forall acceptable result'.
Proof.
  induction elements as [|r elements IH]; intros result result' Hres.
  - by intros [= <-].
  - cbn [for_of]. assert (r = JNull \/ r <> JNull) as [->|Hr]
      by (destruct r; auto); [done|].
    rewrite iteration_accept by done. cbn [mbind Result_bind].
    apply IH. apply Forall_app. split; [done|].
    destruct (accept fallback r) eqn:E; [|done].
    apply Forall_singleton. by eapply accept_acceptable.
Qed.

Lemma entries_of_acceptable stored : Forall acceptable (entries_of fallback stored).
Proof.
  unfold entries_of. destruct (toString <$> stored) as [[|c payload]|]; try done.
  destruct (JSON_parse _) as [[| | | |elements|]|]; try done.
  destruct (for_of fallback elements []) eqn:E; [|done].
  by eapply for_of_acceptable.
Qed.

Lemma loaded_acceptable key w : Forall acceptable (loaded fallback key w).
Proof.
  unfold loaded. destruct (next_fails w); [done|]. apply entries_of_acceptable.
Qed.


(** *** The world along the calls of the host *)

Lemma next_fails_no_failures w : no_failures w = true -> next_fails w = false.
Proof.
  unfold no_failures, next_fails, host_call. destruct (schedule w) as [|ev evs]; [done|].
  cbn. intros [H _]%andb_true_iff. by destruct (fails ev).
Qed.

Lemma no_failures_after_call w : no_failures w = true -> no_failures (after_call w) = true.
Proof.
  unfold no_failures, after_call, host_call.
  destruct (schedule w) as [|ev evs] eqn:E; cbn; [by rewrite E|].
  by intros [_ H]%andb_true_iff.
Qed.

Lemma now_after_call w : (now w <= now (after_call w))%Z.
Proof.
  unfold after_call, host_call. destruct (schedule w) as [|ev evs]; cbn; lia.
Qed.

Lemma clock_ok_after_call w : clock_ok w = true -> clock_ok (after_call w) = true.
Proof.
  unfold clock_ok, after_call, host_call.
  destruct (schedule w) as [|ev evs] eqn:E; cbn; [by rewrite E|].
  intros [H1 H2]%andb_true_iff. apply Z.leb_le in H1, H2.
  unfold total_elapsed in *. cbn [foldr] in H2.
  apply andb_true_iff. split; apply Z.leb_le; lia.
Qed.

Lemma total_elapsed_nonneg evs : (0 <= total_elapsed evs)%Z.
Proof. unfold total_elapsed. induction evs as [|ev evs IH]; cbn [foldr]; lia. Qed.

Lemma clock_ok_now w : clock_ok w = true -> (- maxTime <= now w <= maxTime)%Z.
Proof.
  unfold clock_ok. intros [H1 H2]%andb_true_iff. apply Z.leb_le in H1, H2.
  pose proof (total_elapsed_nonneg (schedule w)). lia.
Qed.

(** *** The closed form of [appendRecentSearchesStore] *)

Lemma setRecentSearches_not_awaited key l w :
  not_awaited (setRecentSearches key l) w
  = (Ok (),
     if next_fails w then add_unhandled HostError (after_call w)
     else with_storage (insert key (LSString (JSON_stringify l))) (after_call w)).
Proof.
  unfold not_awaited, setRecentSearches, setLocalStorageItem.
  rewrite host_call_eq. by destruct (next_fails w).
Qed.

Lemma appendRecentSearchesStore_eq key search w :
  appendRecentSearchesStore fallback key search w
  = (Ok (), appended fallback key search w).
Proof.
  unfold appendRecentSearchesStore, appended, mbind, M_bind.
  rewrite getRecentSearches_eq.
  destruct (loaded fallback key w) as [|r data];
    by rewrite setRecentSearches_not_awaited.
Qed.

Lemma dispatchAppend_eq key tx w :
  dispatchAppend fallback key tx w
  = (Ok (), appended fallback key {| text := tx; timestamp := new_Date_now (now w) |} w).
Proof. apply appendRecentSearchesStore_eq. Qed.

Lemma next_fails_with_storage f w : next_fails (with_storage f w) = next_fails w.
Proof. unfold next_fails, host_call. cbn. by destruct (schedule w). Qed.

Lemma loaded_appended key search w :
  next_fails (after_call w) = false ->
  next_fails (after_call (after_call w)) = false ->
  loaded fallback key (appended fallback key search w)
  = reload fallback (take 20 (search :: loaded fallback key w)).
Proof.
  intros H1 H2. unfold appended. rewrite H1.
  unfold loaded at 1.
  rewrite next_fails_with_storage, H2.
  cbn [storage with_storage]. rewrite lookup_insert_eq.
  apply entries_of_stringify.
Qed.

Lemma well_formed_now tx t :
  tx <> [] -> (- maxTime <= t <= maxTime)%Z ->
  well_formed {| text := tx; timestamp := new_Date_now t |}.
Proof. intros Htx Ht. split; [split; [done|exact Ht]|done]. Qed.

Lemma well_formed_filter l :
  Forall acceptable l -> Forall well_formed (filter (fun r => has_time r = true) l).
Proof.
  intros Hl. apply Forall_forall. intros r [Hr Hin]%list_elem_of_filter.
  split; [|done]. by eapply Forall_forall in Hl.
Qed.

Lemma no_failures_appended key search w :
  no_failures w = true -> no_failures (appended fallback key search w) = true.
Proof.
  intros H. unfold appended.
  rewrite (next_fails_no_failures (after_call w)) by by apply no_failures_after_call.
  change (no_failures (with_storage ?f ?w)) with (no_failures w).
  by do 2 apply no_failures_after_call.
Qed.

Lemma clock_ok_appended key search w :
  clock_ok w = true -> clock_ok (appended fallback key search w) = true.
Proof.
  intros H. unfold appended. destruct (next_fails (after_call w)).
  - change (clock_ok (add_unhandled ?e ?w)) with (clock_ok w).
    by do 2 apply clock_ok_after_call.
  - change (clock_ok (with_storage ?f ?w)) with (clock_ok w).
    by do 2 apply clock_ok_after_call.
Qed.

Lemma now_appended key search w :
  (now w <= now (appended fallback key search w))%Z.
Proof.
  unfold appended.
  pose proof (now_after_call w). pose proof (now_after_call (after_call w)).
  destruct (next_fails (after_call w)); cbn; lia.
Qed.

(** What a load sees after [dispatchAppend], when the host does not fail. *)
Lemma loaded_dispatchAppend key tx w :
  tx <> [] -> no_failures w = true -> clock_ok w = true ->
  loaded fallback key (dispatchAppend fallback key tx w).2
  = {| text := tx; timestamp := new_Date_now (now w) |}
      :: filter (fun r => has_time r = true) (take 19 (loaded fallback key w)).
Proof.
  intros Htx Hf Hc. rewrite dispatchAppend_eq. cbn [snd].
  rewrite loaded_appended
    by (apply next_fails_no_failures; by repeat apply no_failures_after_call).
  change (take 20 (?a :: ?l)) with (a :: take 19 l).
  rewrite reload_acceptable.
  - rewrite filter_cons_True by done. done.
  - constructor.
    + apply well_formed_now; [done|by apply clock_ok_now].
    + apply Forall_take, loaded_acceptable.
Qed.


Lemma well_formed_loaded_dispatchAppend key tx w :
  tx <> [] -> no_failures w = true -> clock_ok w = true ->
  Forall well_formed (loaded fallback key (dispatchAppend fallback key tx w).2).
Proof.
  intros Htx Hf Hc. rewrite loaded_dispatchAppend by done. constructor.
  - apply well_formed_now; [done|by apply clock_ok_now].
  - apply well_formed_filter, Forall_take, loaded_acceptable.
Qed.

Lemma filter_has_time_well_formed l :
  Forall well_formed l -> filter (fun r => has_time r = true) l = l.
Proof.
  induction 1 as [|r l [_ Hr] _ IH]; [done|].
  rewrite filter_cons_True by done. by rewrite IH.
Qed.

Lemma take_app_take {A} (n m : nat) (l k : list A) :
  (n <= length l + m)%nat -> take n (l ++ take m k) = take n (l ++ k).
Proof.
  intros H. rewrite !take_app. f_equal. rewrite take_take. f_equal. lia.
Qed.

Lemma append_all_eq key texts : forall w,
  Forall (fun tx => tx <> []) texts ->
  no_failures w = true -> clock_ok w = true ->
  Forall well_formed (loaded fallback key w) ->
  (length (loaded fallback key w) <= 20)%nat ->
  let w' := (append_all fallback key texts w).2 in
  (append_all fallback key texts w).1 = Ok ()
  /\ map text (loaded fallback key w')
     = take 20 (rev texts ++ map text (loaded fallback key w))
  /\ no_failures w' = true /\ clock_ok w' = true.
Proof.
  induction texts as [|tx texts IH]; intros w Htexts Hf Hc Hwf Hlen.
  - cbn. repeat split; try done. rewrite take_ge; [done|]. by rewrite length_map.
  - inversion Htexts as [|?? Htx Hrest]; subst.
    cbn [append_all]. unfold mbind, M_bind.
    pose proof (loaded_dispatchAppend key tx w Htx Hf Hc) as Hload.
    pose proof (well_formed_loaded_dispatchAppend key tx w Htx Hf Hc) as Hwf'.
    rewrite filter_has_time_well_formed in Hload by by apply Forall_take.
    rewrite dispatchAppend_eq in *. cbn [snd] in *.
    set (w1 := appended fallback key _ w) in *.
    destruct (IH w1) as (Hok & Htexts' & Hf' & Hc'); try done.
    + by apply no_failures_appended.
    + by apply clock_ok_appended.
    + rewrite Hload. cbn [length]. rewrite length_take. lia.
    + repeat split; try done. rewrite Htexts', Hload. cbn [rev map].
      rewrite <- app_assoc. cbn [app text]. rewrite <- firstn_map.
      rewrite !(cons_middle tx), !app_assoc.
      apply take_app_take. rewrite length_app. cbn. lia.
Qed.

End StoreFacts.

(** ** Claims about [getRecentSearches] *)

Section LoadClaims.

Variable fallback : jsstring -> option Z.

Lemma accept_iff r e :
  accept fallback r = Some e
  <-> exists members tx ts,
        r = JObject members
        /\ lookup_member (js "text") members = Some (JString tx) /\ tx <> []
        /\ lookup_member (js "timestamp") members = Some (JString ts) /\ ts <> []
        /\ e = {| text := tx; timestamp := new_Date_string fallback ts |}.
Proof.
  split.
  - unfold accept. destruct r as [| | | | |members]; try done.
    destruct (lookup_member (js "text") members) as [[| | |tx| |]|] eqn:E1; try done.
    destruct (lookup_member (js "timestamp") members) as [[| | |ts| |]|] eqn:E2; try done.
    destruct tx; [done|]. destruct ts; [done|]. intros [= <-].
    by eexists _, _, _.
  - intros (members & tx & ts & -> & E1 & Htx & E2 & Hts & ->).
    unfold accept. rewrite E1, E2. destruct tx; [done|]. by destruct ts.
Qed.

Lemma new_Date_string_utc s t :
  parse_utc s = Some t -> TimeClip t = Some t ->
  new_Date_string fallback s = {| time_value := Some t |}.
Proof.
  intros Hs Ht. unfold new_Date_string, Date_parse. rewrite Hs. cbn [mbind option_bind].
  by rewrite Ht.
Qed.

(** C1, as amended.  For the payload of the claim, [getRecentSearches]
    returns two entries: b, with the Date the engine makes of not-a-date,
    and c, at 2021-01-01T00:00:00Z.  An element that is not null is accepted
    if and only if its text is a non-empty string and its timestamp is a
    non-empty string, whether or not that string is a date; every other
    element that is not null is skipped. *)
Theorem load_malformed_payload key w :
  storage w !! key = Some (LSString payload_C1) ->
  next_fails w = false ->
  (getRecentSearches fallback key w).1
  = Ok (Some [ {| text := js "b";
                  timestamp := new_Date_string fallback (js "not-a-date") |};
               {| text := js "c";
                  timestamp := {| time_value := Some 1609459200000%Z |} |} ])
  /\ (forall result r, r <> JNull ->
        iteration fallback result r
        = Ok (result ++ option_list (accept fallback r)))
  /\ (forall r e,
        accept fallback r = Some e
        <-> exists members tx ts,
              r = JObject members
              /\ lookup_member (js "text") members = Some (JString tx) /\ tx <> []
              /\ lookup_member (js "timestamp") members = Some (JString ts) /\ ts <> []
              /\ e = {| text := tx; timestamp := new_Date_string fallback ts |}).
Proof.
  intros Hstored Hnext. split; [|split].
  - rewrite getRecentSearches_eq. cbn [fst]. unfold loaded. rewrite Hnext, Hstored.
    rewrite <- (new_Date_string_utc (js "2021-01-01T00:00:00Z"))
      by (vm_compute; reflexivity).
    cbv -[new_Date_string]. reflexivity.
  - intros result r Hr. by apply iteration_accept.
  - apply accept_iff.
Qed.

End LoadClaims.

Lemma load_malformed_payload_witness :
  (getRecentSearches iso_only (js "k")
     (world_with (js "k") (LSString payload_C1) 0 [])).1
  = Ok (Some [ {| text := js "b";
                  timestamp := new_Date_string iso_only (js "not-a-date") |};
               {| text := js "c";
                  timestamp := {| time_value := Some 1609459200000%Z |} |} ]).
Proof.
  apply (load_malformed_payload iso_only (js "k")
           (world_with (js "k") (LSString payload_C1) 0 []));
    vm_compute; reflexivity.
Defined.


(** C1 as the claim has it fails: the element b, whose timestamp is not a
    date, is returned as well. *)
Lemma load_malformed_payload_counterexample :
  (getRecentSearches iso_only (js "k")
     (world_with (js "k") (LSString payload_C1) 0 [])).1
  <> Ok (Some [ {| text := js "c";
                   timestamp := {| time_value := Some 1609459200000%Z |} |} ]).
Proof. vm_compute. discriminate. Qed.

Section LoadTotalClaims.

Variable fallback : jsstring -> option Z.

(** C6.  When nothing is stored under the key, or what is stored is not
    JSON, or is JSON but not an array, [getRecentSearches] resolves to the
    empty array; nothing is thrown. *)
Theorem load_without_collection key w :
  storage w !! key = None
  \/ (exists v, storage w !! key = Some v /\ JSON_parse (toString v) = None)
  \/ (exists v json, storage w !! key = Some v
                     /\ JSON_parse (toString v) = Some json
                     /\ forall elements, json <> JArray elements) ->
  getRecentSearches fallback key w = (Ok (Some []), after_call w).
Proof.
  intros H. rewrite getRecentSearches_eq. do 3 f_equal.
  unfold loaded. destruct (next_fails w); [done|]. unfold entries_of.
  destruct H as [-> | [(v & -> & Hv) | (v & json & -> & Hv & Hjson)]];
    cbn [fmap option_fmap option_map]; [done| |];
    destruct (toString v) as [|c payload]; try done; rewrite Hv; [done|].
  destruct json as [| | | |elements|]; try done. by destruct (Hjson elements).
Qed.

(** C9.  [getRecentSearches] never throws and always resolves to an array,
    whatever is stored and whether or not the host fails. *)
Theorem load_total key w :
  exists result, (getRecentSearches fallback key w).1 = Ok (Some result).
Proof. rewrite getRecentSearches_eq. by eexists. Qed.

(** C10, as amended.  When the stored array holds no null,
    [getRecentSearches] returns an entry for every valid element of the
    array and for no other, in the order of the array, however many there
    are and whatever else the array holds; [appendRecentSearchesStore] is
    what cuts the list to 20, in what it writes. *)
Theorem load_does_not_truncate key w payload elements :
  storage w !! key = Some (LSString payload) ->
  next_fails w = false ->
  JSON_parse payload = Some (JArray elements) ->
  JNull ∉ elements ->
  (getRecentSearches fallback key w).1 = Ok (Some (omap (accept fallback) elements))
  /\ (forall valid,
        valid `sublist_of` elements ->
        Forall (fun r => is_Some (accept fallback r)) valid ->
        exists result,
          (getRecentSearches fallback key w).1 = Ok (Some result)
          /\ (length valid <= length result)%nat
          /\ exists entries,
               Forall2 (fun r e => accept fallback r = Some e) valid entries
               /\ entries `sublist_of` result)
  /\ (forall search,
        next_fails (after_call w) = false ->
        exists fresh,
          storage (appendRecentSearchesStore fallback key search w).2 !! key
          = Some (LSString (JSON_stringify fresh))
          /\ fresh = take 20 (search :: omap (accept fallback) elements)
          /\ (length fresh <= 20)%nat).
Proof.
  intros Hstored Hnext Hparse Hnull.
  assert (Hloaded : loaded fallback key w = omap (accept fallback) elements).
  { unfold loaded, entries_of. rewrite Hnext, Hstored.
    cbn [fmap option_fmap option_map toString].
    destruct payload as [|c payload]; [done|].
    rewrite Hparse, for_of_accept; [done|].
    apply Forall_forall. by intros r Hr ->. }
  split; [by rewrite getRecentSearches_eq, Hloaded|]. split.
  - intros valid Hsub Hvalid. exists (omap (accept fallback) elements).
    rewrite getRecentSearches_eq, Hloaded. split; [done|].
    assert (Hall : Forall2 (fun r e => accept fallback r = Some e) valid
                           (omap (accept fallback) valid)).
    { clear -Hvalid. induction Hvalid as [|r l [e He] _ IH]; [constructor|].
      cbn [omap list_omap]. rewrite He. by constructor. }
    assert (Hin : omap (accept fallback) valid
                  `sublist_of` omap (accept fallback) elements).
    { clear -Hsub. induction Hsub as [|r l1 l2 _ IH|r l1 l2 _ IH]; [done| |];
        cbn [omap list_omap]; destruct (accept fallback r); try done.
      - by constructor.
      - by constructor. }
    split.
    + rewrite (Forall2_length _ _ _ Hall). by apply sublist_length.
    + by exists (omap (accept fallback) valid).
  - intros search Hset. rewrite appendRecentSearchesStore_eq. cbn [snd].
    unfold appended. rewrite Hset, Hloaded. cbn [storage with_storage].
    rewrite lookup_insert_eq. eexists. repeat split. rewrite length_take. lia.
Qed.

End LoadTotalClaims.

(** ** Claims about appending *)

Section AppendClaims.

Variable fallback : jsstring -> option Z.

Lemma loaded_text_not_empty key w :
  Forall (fun e => text e <> []) (loaded fallback key w).
Proof.
  eapply Forall_impl; [apply loaded_acceptable|]. by intros e [].
Qed.

Lemma storage_dispatchAppend key tx w :
  no_failures w = true ->
  storage (dispatchAppend fallback key tx w).2 !! key
  = Some (LSString (JSON_stringify
            ({| text := tx; timestamp := new_Date_now (now w) |}
               :: take 19 (loaded fallback key w)))).
Proof.
  intros Hf. rewrite dispatchAppend_eq. cbn [snd]. unfold appended.
  rewrite (next_fails_no_failures (after_call w)) by by apply no_failures_after_call.
  cbn [storage with_storage]. by rewrite lookup_insert_eq.
Qed.

(** C2, as amended.  An append of the empty text is not refused: it writes
    an entry with the empty text at the head of the stored list, cut to 20.
    A load afterwards yields no new entry, because a load skips the entries
    whose text is empty: it returns the first 19 of the entries loaded
    before, those among them whose date is valid.  No entry a load returns
    has an empty text. *)
Theorem append_empty_text key w :
  no_failures w = true -> clock_ok w = true ->
  let w' := (dispatchAppend fallback key [] w).2 in
  storage w' !! key
  = Some (LSString (JSON_stringify
            ({| text := []; timestamp := new_Date_now (now w) |}
               :: take 19 (loaded fallback key w))))
  /\ loaded fallback key w'
     = filter (fun r => has_time r = true) (take 19 (loaded fallback key w))
  /\ Forall (fun e => text e <> []) (loaded fallback key w').
Proof.
  intros Hf Hc w'. split; [by apply storage_dispatchAppend|].
  split; [|apply loaded_text_not_empty].
  unfold w'. rewrite dispatchAppend_eq. cbn [snd].
  rewrite loaded_appended
    by (apply next_fails_no_failures; by repeat apply no_failures_after_call).
  change (take 20 (?a :: ?l)) with (a :: take 19 l).
  unfold reload. cbn [omap list_omap reload1 text is_empty].
  apply reload_acceptable, Forall_take, loaded_acceptable.
Qed.

(** C3, as amended.  [getRecentSearches] never throws; when the read fails
    it resolves to the empty array.  [appendRecentSearchesStore] never
    throws either: a failed read counts as no data, and the write is not
    awaited, so that its failure reaches nobody and leaves the storage as it
    was.  [clearRecentSearchesStore] has no handler: when the removal fails,
    it throws to its caller, and the storage is as it was. *)
Theorem persistence_failures key search w :
  (exists result, (getRecentSearches fallback key w).1 = Ok (Some result))
  /\ (next_fails w = true ->
      getRecentSearches fallback key w = (Ok (Some []), after_call w))
  /\ (appendRecentSearchesStore fallback key search w).1 = Ok ()
  /\ (next_fails (after_call w) = true ->
      storage (appendRecentSearchesStore fallback key search w).2 = storage w)
  /\ (next_fails w = true ->
      clearRecentSearchesStore key w = (Throw HostError, after_call w))
  /\ (next_fails w = false ->
      clearRecentSearchesStore key w
      = (Ok (), with_storage (delete key) (after_call w))).
Proof.
  repeat split.
  - rewrite getRecentSearches_eq. by eexists.
  - intros H. rewrite getRecentSearches_eq. unfold loaded. by rewrite H.
  - by rewrite appendRecentSearchesStore_eq.
  - intros H. rewrite appendRecentSearchesStore_eq. cbn [snd]. unfold appended.
    rewrite H. cbn [storage add_unhandled]. by rewrite !storage_after_call.
  - intros H. unfold clearRecentSearchesStore, removeLocalStorageItem.
    by rewrite host_call_eq, H.
  - intros H. unfold clearRecentSearchesStore, removeLocalStorageItem.
    by rewrite host_call_eq, H.
Qed.


Lemma append_all_from_any key tx texts w :
  Forall (fun tx => tx <> []) (tx :: texts) ->
  no_failures w = true -> clock_ok w = true ->
  let w' := (append_all fallback key (tx :: texts) w).2 in
  (append_all fallback key (tx :: texts) w).1 = Ok ()
  /\ map text (loaded fallback key w')
     = take 20 (rev (tx :: texts)
                ++ map text (filter (fun r => has_time r = true)
                                    (take 19 (loaded fallback key w))))
  /\ no_failures w' = true /\ clock_ok w' = true.
Proof.
  intros Htexts Hf Hc. inversion Htexts as [|?? Htx Hrest]; subst.
  cbn [append_all]. unfold mbind, M_bind.
  pose proof (loaded_dispatchAppend fallback key tx w Htx Hf Hc) as Hload.
  pose proof (well_formed_loaded_dispatchAppend fallback key tx w Htx Hf Hc) as Hwf.
  rewrite dispatchAppend_eq in *. cbn [snd] in *.
  set (w1 := appended fallback key _ w) in *.
  destruct (append_all_eq fallback key texts w1) as (Hok & Htexts' & Hf' & Hc');
    try done.
  - by apply no_failures_appended.
  - by apply clock_ok_appended.
  - rewrite Hload. cbn [length].
    pose proof (length_filter (fun r => has_time r = true)
                  (take 19 (loaded fallback key w))) as Hle.
    rewrite length_take in Hle. lia.
  - repeat split; try done. rewrite Htexts', Hload. cbn [rev map text].
    by rewrite <- app_assoc.
Qed.

(** C4.  After 21 or more successive appends of non-empty texts under one
    key, a load returns exactly 20 entries, whose texts are the last 20
    appended, the most recent first; after each of the appends a load
    returns at most 20 entries.  The texts need not be distinct. *)
Theorem capacity_bound key texts w :
  (21 <= length texts)%nat ->
  Forall (fun tx => tx <> []) texts ->
  no_failures w = true -> clock_ok w = true ->
  (exists result,
      ((append_all fallback key texts ≫= fun _ => getRecentSearches fallback key) w).1
      = Ok (Some result)
      /\ length result = 20%nat
      /\ map text result = take 20 (rev texts))
  /\ (forall n, (1 <= n <= length texts)%nat ->
        (length (loaded fallback key (append_all fallback key (take n texts) w).2)
         <= 20)%nat).
Proof.
  intros Hlen Htexts Hf Hc. split.
  - destruct texts as [|tx texts]; [cbn in Hlen; lia|].
    destruct (append_all_from_any key tx texts w) as (Hok & Hmap & _); try done.
    unfold mbind, M_bind.
    destruct (append_all fallback key (tx :: texts) w) as [[[]|e] w'] eqn:E;
      cbn [fst snd] in *; [|done].
    rewrite getRecentSearches_eq. eexists. split; [done|].
    assert (Hmap' : map text (loaded fallback key w') = take 20 (rev (tx :: texts))).
    { rewrite Hmap, take_app_le; [done|]. rewrite length_rev. lia. }
    split; [|done].
    rewrite <- (length_map text), Hmap', length_take, length_rev. lia.
  - intros n Hn. destruct (take n texts) as [|tx' texts'] eqn:E.
    + apply (f_equal length) in E. rewrite length_take in E. cbn in E. lia.
    + destruct (append_all_from_any key tx' texts' w) as (_ & Hmap & _); try done.
      { rewrite <- E. by apply Forall_take. }
      rewrite <- (length_map text), Hmap, length_take. lia.
Qed.

(** C5.  An append of a non-empty text, foo for one, followed by a load:
    the first entry the load returns has that text, and its timestamp is
    the time at which the append was called, which is within the time the
    append takes. *)
Theorem append_then_load_round_trip key tx w :
  tx <> [] -> no_failures w = true -> clock_ok w = true ->
  exists e rest t,
    (append_then_load fallback key tx w).1 = Ok (Some (e :: rest))
    /\ text e = tx
    /\ time_value (timestamp e) = Some t
    /\ t = now w
    /\ (now w <= t <= now (dispatchAppend fallback key tx w).2)%Z.
Proof.
  intros Htx Hf Hc. unfold append_then_load, mbind, M_bind.
  pose proof (loaded_dispatchAppend fallback key tx w Htx Hf Hc) as Hload.
  rewrite dispatchAppend_eq in *. cbn [snd] in *.
  rewrite getRecentSearches_eq, Hload. cbn [fst].
  eexists _, _, (now w). repeat split; [lia|]. apply now_appended.
Qed.

(** C8.  An append of a non-empty text writes the new entry in front of the
    entries loaded before, whatever their texts are: a load afterwards
    returns the new entry first, then the first 19 of the old ones, those
    whose date is valid, an old entry with the same text included; two
    appends of one text leave two entries with that text. *)
Theorem append_keeps_duplicates key tx w :
  tx <> [] -> no_failures w = true -> clock_ok w = true ->
  let fresh := {| text := tx; timestamp := new_Date_now (now w) |} in
  let w1 := (dispatchAppend fallback key tx w).2 in
  let w2 := (dispatchAppend fallback key tx w1).2 in
  storage w1 !! key
  = Some (LSString (JSON_stringify (fresh :: take 19 (loaded fallback key w))))
  /\ loaded fallback key w1
     = fresh :: filter (fun r => has_time r = true) (take 19 (loaded fallback key w))
  /\ (forall e, e ∈ take 19 (loaded fallback key w) -> has_time e = true ->
        text e = tx -> exists rest, loaded fallback key w1 = fresh :: rest /\ e ∈ rest)
  /\ (exists e1 e2 rest,
        loaded fallback key w2 = e1 :: e2 :: rest /\ text e1 = tx /\ text e2 = tx).
Proof.
  intros Htx Hf Hc fresh w1 w2.
  pose proof (loaded_dispatchAppend fallback key tx w Htx Hf Hc) as Hload.
  fold w1 fresh in Hload.
  split; [by apply storage_dispatchAppend|]. split; [done|]. split.
  - intros e He Htime _. eexists. split; [done|]. by apply list_elem_of_filter.
  - assert (Hf1 : no_failures w1 = true).
    { unfold w1. rewrite dispatchAppend_eq. by apply no_failures_appended. }
    assert (Hc1 : clock_ok w1 = true).
    { unfold w1. rewrite dispatchAppend_eq. by apply clock_ok_appended. }
    pose proof (loaded_dispatchAppend fallback key tx w1 Htx Hf1 Hc1) as Hload2.
    fold w2 in Hload2. rewrite Hload in Hload2.
    change (take 19 (fresh :: ?l)) with (fresh :: take 18 l) in Hload2.
    rewrite filter_cons_True in Hload2 by done.
    by eexists _, _, _.
Qed.

End AppendClaims.

(** ** The debounced append *)

Section HookFacts.

Local Open Scope Z_scope.

Variable fallback : jsstring -> option Z.
Variable key : jsstring.




















End HookFacts.

(** ** The claims at concrete inputs *)

Section Witnesses.

Local Open Scope Z_scope.

Lemma load_without_collection_witness :
  getRecentSearches iso_only (js "k") (world_with (js "k") (LSString (js "{'a':1}")) 0 [])
  = (Ok (Some []), after_call (world_with (js "k") (LSString (js "{'a':1}")) 0 [])).
Proof.
  apply load_without_collection. right. right.
  exists (LSString (js "{'a':1}")), (JObject [(js "a", JNumber 1 0)]).
  repeat split; try (vm_compute; reflexivity). discriminate.
Defined.

Lemma load_does_not_truncate_witness :
  (getRecentSearches iso_only (js "k")
     (world_with (js "k") (LSString (payload21_and (js "{'text':'x'}"))) 0 [])).1
  = Ok (Some entries21).
Proof.
  destruct (load_does_not_truncate iso_only (js "k")
              (world_with (js "k") (LSString (payload21_and (js "{'text':'x'}"))) 0 [])
              (payload21_and (js "{'text':'x'}"))
              (map json_of_search entries21 ++ [JObject [(js "text", JString (js "x"))]]))
    as (Hload & _).
  - vm_compute; reflexivity.
  - reflexivity.
  - vm_compute; reflexivity.
  - intros Hin. apply elem_of_app in Hin as [Hin|Hin].
    + apply list_elem_of_fmap in Hin as (r & Hr & _). discriminate.
    + apply list_elem_of_singleton in Hin. discriminate.
  - rewrite Hload. vm_compute. reflexivity.
Defined.

Lemma append_empty_text_witness :
  storage (dispatchAppend iso_only (js "k") [] (empty_world 0 [])).2 !! js "k"
  = Some (LSString (JSON_stringify
            ({| text := []; timestamp := new_Date_now 0 |}
               :: take 19 (loaded iso_only (js "k") (empty_world 0 []))))).
Proof.
  apply (append_empty_text iso_only (js "k") (empty_world 0 [])); reflexivity.
Defined.

Lemma capacity_bound_witness :
  exists result,
    ((append_all iso_only (js "k") texts21 ≫= fun _ => getRecentSearches iso_only (js "k"))
       (empty_world 0 [])).1
    = Ok (Some result)
    /\ length result = 20%nat
    /\ map text result = take 20 (rev texts21).
Proof.
  apply (capacity_bound iso_only (js "k") texts21 (empty_world 0 [])).
  - vm_compute. lia.
  - repeat constructor; discriminate.
  - reflexivity.
  - reflexivity.
Defined.

Lemma append_then_load_round_trip_witness :
  exists e rest t,
    (append_then_load iso_only (js "k") (js "foo") (empty_world 1609459200123 [])).1
    = Ok (Some (e :: rest))
    /\ text e = js "foo"
    /\ time_value (timestamp e) = Some t
    /\ t = 1609459200123
    /\ 1609459200123 <= t
        <= now (dispatchAppend iso_only (js "k") (js "foo")
                  (empty_world 1609459200123 [])).2.
Proof.
  apply (append_then_load_round_trip iso_only (js "k") (js "foo")
           (empty_world 1609459200123 [])).
  - discriminate.
  - reflexivity.
  - reflexivity.
Defined.

Lemma append_keeps_duplicates_witness :
  exists e1 e2 rest,
    loaded iso_only (js "k")
      (dispatchAppend iso_only (js "k") (js "foo")
         (dispatchAppend iso_only (js "k") (js "foo") (empty_world 0 [])).2).2
    = e1 :: e2 :: rest
    /\ text e1 = js "foo" /\ text e2 = js "foo".
Proof.
  apply (append_keeps_duplicates iso_only (js "k") (js "foo") (empty_world 0 [])).
  - discriminate.
  - reflexivity.
  - reflexivity.
Defined.

Lemma persistence_failures_witness :
  storage (appendRecentSearchesStore iso_only (js "k")
             {| text := js "foo"; timestamp := new_Date_now 0 |}
             (empty_world 0 [ {| elapsed := 1; fails := false |};
                              {| elapsed := 1; fails := true |} ])).2
  = ∅.
Proof.
  apply (persistence_failures iso_only (js "k")
           {| text := js "foo"; timestamp := new_Date_now 0 |}
           (empty_world 0 [ {| elapsed := 1; fails := false |};
                            {| elapsed := 1; fails := true |} ])).
  reflexivity.
Defined.


End Witnesses.

(** ** Where the code departs from the claims *)

(** C2 fails as the claim has it: an append of the empty text changes what
    is stored, and what it stores is an entry with the empty text. *)
Lemma append_empty_text_counterexample :
  storage (dispatchAppend iso_only (js "k") [] (empty_world 0 [])).2 !! js "k"
  = Some (LSString (js "[{'text':'','timestamp':'1970-01-01T00:00:00.000Z'}]"))
  /\ storage (dispatchAppend iso_only (js "k") [] (empty_world 0 [])).2 !! js "k"
     <> storage (empty_world 0 []) !! js "k".
Proof. split; [vm_compute; reflexivity|vm_compute; discriminate]. Qed.

(** C10 fails as the claim has it: the stored array holds 21 valid entries
    and, after them, a null; [getRecentSearches] returns none of them. *)
Lemma load_does_not_truncate_counterexample :
  JSON_parse (payload21_and (js "null"))
  = Some (JArray (map json_of_search entries21 ++ [JNull]))
  /\ omap (accept iso_only) (map json_of_search entries21) = entries21
  /\ length entries21 = 21%nat
  /\ (getRecentSearches iso_only (js "k")
        (world_with (js "k") (LSString (payload21_and (js "null"))) 0 [])).1
     = Ok (Some []).
Proof. repeat split; vm_compute; reflexivity. Qed.

(** C3 fails as the claim has it: when the removal fails,
    [clearRecentSearchesStore] throws to its caller. *)
Lemma persistence_failures_counterexample :
  (clearRecentSearchesStore (js "k")
     (empty_world 0 [{| elapsed := 0; fails := true |}])).1
  = Throw HostError.
Proof. reflexivity. Qed.


(** * More properties of the store *)

Section StoreCoverage.

Variable fallback : jsstring -> option Z.

(** X1.  Once [clearRecentSearchesStore] has succeeded nothing is stored
    under the key, a load resolves to the empty array whether or not its
    read fails, and a second clear that succeeds changes nothing. *)
Theorem clear_then_load key w :
  next_fails w = false ->
  let w1 := (clearRecentSearchesStore key w).2 in
  (clearRecentSearchesStore key w).1 = Ok ()
  /\ storage w1 !! key = None
  /\ getRecentSearches fallback key w1 = (Ok (Some []), after_call w1)
  /\ (next_fails w1 = false ->
      (clearRecentSearchesStore key w1).1 = Ok ()
      /\ storage (clearRecentSearchesStore key w1).2 = storage w1).
Proof.
  intros Hnext w1.
  assert (Hclear : forall w0, next_fails w0 = false ->
            clearRecentSearchesStore key w0
            = (Ok (), with_storage (delete key) (after_call w0))).
  { intros w0 H0. unfold clearRecentSearchesStore, removeLocalStorageItem.
    by rewrite host_call_eq, H0. }
  assert (Hgone : storage w1 !! key = None).
  { unfold w1. rewrite Hclear by done. cbn [snd storage with_storage].
    apply lookup_delete_eq. }
  split; [by rewrite Hclear|]. split; [done|]. split.
  - rewrite getRecentSearches_eq. unfold loaded, entries_of. rewrite Hgone.
    by destruct (next_fails w1).
  - intros Hnext1. rewrite (Hclear w1) by done. split; [done|].
    cbn [snd storage with_storage]. rewrite storage_after_call.
    apply delete_id. done.
Qed.

(** X2.  The operations of the store touch the key they are given and no
    other: after an append or a clear, what is stored under any other key
    is what it was; a load changes nothing that is stored. *)
Theorem other_keys_untouched key key' search l w :
  key <> key' ->
  storage (appendRecentSearchesStore fallback key search w).2 !! key'
  = storage w !! key'
  /\ storage (clearRecentSearchesStore key w).2 !! key' = storage w !! key'
  /\ storage (setRecentSearches key l w).2 !! key' = storage w !! key'
  /\ storage (getRecentSearches fallback key w).2 = storage w.
Proof.
  intros Hne. repeat split.
  - rewrite appendRecentSearchesStore_eq. cbn [snd]. unfold appended.
    destruct (next_fails (after_call w)); cbn [storage add_unhandled with_storage];
      rewrite ?lookup_insert_ne by done; by rewrite !storage_after_call.
  - unfold clearRecentSearchesStore, removeLocalStorageItem. rewrite host_call_eq.
    destruct (next_fails w); cbn [snd storage with_storage];
      rewrite ?lookup_delete_ne by done; by rewrite storage_after_call.
  - unfold setRecentSearches, setLocalStorageItem. rewrite host_call_eq.
    destruct (next_fails w); cbn [snd storage with_storage];
      rewrite ?lookup_insert_ne by done; by rewrite storage_after_call.
  - rewrite getRecentSearches_eq. apply storage_after_call.
Qed.

Lemma reload_clipped l :
  Forall (fun r => clipped (timestamp r)) l ->
  reload fallback l = filter (fun r => survives r = true) l.
Proof.
  induction 1 as [|r l Hr _ IH]; [done|].
  unfold reload in *. cbn [omap list_omap]. unfold survives at 1.
  destruct (is_empty (text r)) eqn:E.
  - unfold reload1. rewrite E. rewrite filter_cons_False; [done|].
    unfold survives. by rewrite E.
  - rewrite reload1_acceptable by (split; [by destruct (text r)|done]).
    destruct (has_time r) eqn:Et.
    + rewrite filter_cons_True by (unfold survives; by rewrite E, Et). by rewrite IH.
    + rewrite filter_cons_False; [done|]. unfold survives. by rewrite E, Et.
Qed.

(** X3.  What [setRecentSearches] writes, [getRecentSearches] reads back:
    the entries whose text is not empty and whose date is valid, as they
    were and in their order, however many they are; the others are left
    out. *)
Theorem set_then_load key l w :
  next_fails w = false -> next_fails (after_call w) = false ->
  Forall (fun r => clipped (timestamp r)) l ->
  (setRecentSearches key l w).1 = Ok ()
  /\ (getRecentSearches fallback key (setRecentSearches key l w).2).1
     = Ok (Some (filter (fun r => survives r = true) l))
  /\ (Forall well_formed l ->
      (getRecentSearches fallback key (setRecentSearches key l w).2).1
      = Ok (Some l)).
Proof.
  intros Hset Hget Hclip.
  assert (Heq : setRecentSearches key l w
                = (Ok (), with_storage (insert key (LSString (JSON_stringify l)))
                            (after_call w))).
  { unfold setRecentSearches, setLocalStorageItem. by rewrite host_call_eq, Hset. }
  assert (Hload : loaded fallback key (setRecentSearches key l w).2
                  = filter (fun r => survives r = true) l).
  { rewrite Heq. cbn [snd]. unfold loaded.
    rewrite next_fails_with_storage, Hget. cbn [storage with_storage].
    rewrite lookup_insert_eq, entries_of_stringify. by apply reload_clipped. }
  split; [by rewrite Heq|]. split.
  - by rewrite getRecentSearches_eq, Hload.
  - intros Hwf. rewrite getRecentSearches_eq, Hload. cbn [fst]. do 2 f_equal.
    clear -Hwf. induction Hwf as [|r l [[Ht _] Hr] _ IH]; [done|].
    rewrite filter_cons_True; [by rewrite IH|].
    unfold survives. rewrite Hr. by destruct (text r).
Qed.

(** X4.  When the load inside an append comes back empty because the read
    failed, because what is stored is not JSON, or because the stored array
    holds a null, the append writes the new entry alone: the entries that
    were stored are gone. *)
Theorem append_over_unreadable key search w :
  next_fails w = true
  \/ (exists v, storage w !! key = Some v /\ JSON_parse (toString v) = None)
  \/ (exists payload elements,
        storage w !! key = Some (LSString payload)
        /\ JSON_parse payload = Some (JArray elements)
        /\ JNull ∈ elements) ->
  next_fails (after_call w) = false ->
  storage (appendRecentSearchesStore fallback key search w).2 !! key
  = Some (LSString (JSON_stringify [search])).
Proof.
  intros Hcause Hset.
  assert (Hempty : loaded fallback key w = []).
  { unfold loaded. destruct Hcause as [-> | [(v & Hv & Hparse) | (p & els & Hv & Hparse & Hnull)]];
      [done| |]; destruct (next_fails w); try done; unfold entries_of; rewrite Hv;
      cbn [fmap option_fmap option_map toString].
    - destruct (toString v); [done|]. by rewrite Hparse.
    - destruct p; [done|]. by rewrite Hparse, for_of_null. }
  rewrite appendRecentSearchesStore_eq. cbn [snd]. unfold appended.
  rewrite Hset, Hempty. cbn [storage with_storage take]. by rewrite lookup_insert_eq.
Qed.


(** X5.  Up to 20 appends of non-empty texts under a key whose load is
    empty lose nothing: a load afterwards returns one entry for each
    append, the most recent first. *)
Theorem appends_below_capacity key texts w :
  (length texts <= 20)%nat ->
  Forall (fun tx => tx <> []) texts ->
  no_failures w = true -> clock_ok w = true ->
  loaded fallback key w = [] ->
  exists result,
    ((append_all fallback key texts ≫= fun _ => getRecentSearches fallback key) w).1
    = Ok (Some result)
    /\ map text result = rev texts
    /\ length result = length texts.
Proof.
  intros Hlen Htexts Hf Hc Hempty.
  destruct (append_all_eq fallback key texts w) as (Hok & Hmap & _); try done.
  { by rewrite Hempty. }
  { rewrite Hempty. cbn. lia. }
  unfold mbind, M_bind.
  destruct (append_all fallback key texts w) as [[[]|e] w'] eqn:E;
    cbn [fst snd] in *; [|done].
  rewrite getRecentSearches_eq. eexists. split; [done|].
  rewrite Hempty, app_nil_r, take_ge in Hmap by (rewrite length_rev; lia).
  split; [done|]. by rewrite <- (length_map text), Hmap, length_rev.
Qed.

Lemma StronglySorted_take {A} (R : A -> A -> Prop) n l :
  StronglySorted R l -> StronglySorted R (take n l).
Proof.
  intros H. revert n. induction H as [|x l Hl IH Hx]; intros [|n]; cbn; try constructor.
  - apply IH.
  - by apply Forall_take.
Qed.

Lemma recent_first_dispatchAppend key tx w :
  tx <> [] -> no_failures w = true -> clock_ok w = true ->
  recent_first (now w) (loaded fallback key w) ->
  recent_first (now (dispatchAppend fallback key tx w).2)
               (loaded fallback key (dispatchAppend fallback key tx w).2).
Proof.
  intros Htx Hf Hc [Hsorted Hbound].
  rewrite loaded_dispatchAppend by done.
  assert (Hwf : Forall well_formed (loaded fallback key w)).
  { pose proof (loaded_acceptable fallback key w) as Hacc.
    apply Forall_forall. intros r Hr. split; [by eapply Forall_forall in Hacc|].
    eapply Forall_forall in Hbound as (tr & Htr & _); [|done].
    unfold has_time. by rewrite Htr. }
  rewrite filter_has_time_well_formed by by apply Forall_take.
  assert (Hnow : (now w <= now (dispatchAppend fallback key tx w).2)%Z).
  { rewrite dispatchAppend_eq. apply now_appended. }
  split.
  - constructor; [by apply StronglySorted_take|].
    apply Forall_take. eapply Forall_impl; [exact Hbound|].
    intros r (tr & Htr & Hle). by exists (now w), tr.
  - constructor.
    + by exists (now w).
    + apply Forall_take. eapply Forall_impl; [exact Hbound|].
      intros r (tr & Htr & Hle). exists tr. split; [done|lia].
Qed.

(** X6.  Appends keep the list in the order of time: when the entries
    loaded under a key are the most recent first and none is from after the
    present time, the same holds after any number of appends of non-empty
    texts. *)
Theorem most_recent_first key texts : forall w,
  Forall (fun tx => tx <> []) texts ->
  no_failures w = true -> clock_ok w = true ->
  recent_first (now w) (loaded fallback key w) ->
  recent_first (now (append_all fallback key texts w).2)
               (loaded fallback key (append_all fallback key texts w).2).
Proof.
  induction texts as [|tx texts IH]; intros w Htexts Hf Hc Hrecent; [done|].
  inversion Htexts as [|?? Htx Hrest]; subst.
  pose proof (recent_first_dispatchAppend key tx w Htx Hf Hc Hrecent) as Hstep.
  cbn [append_all]. unfold mbind, M_bind.
  rewrite dispatchAppend_eq in *. cbn [snd] in *.
  apply IH; try done.
  - by apply no_failures_appended.
  - by apply clock_ok_appended.
Qed.

Lemma lookup_member_other name ms1 m ms2 :
  m.1 <> name ->
  lookup_member name (ms1 ++ m :: ms2) = lookup_member name (ms1 ++ ms2).
Proof.
  intros Hm. unfold lookup_member. rewrite !fold_left_app. cbn [fold_left].
  by rewrite decide_False by done.
Qed.

(** X7.  The loop of [getRecentSearches] reads the text and the timestamp
    of an element and nothing else: a member with another name, wherever it
    stands in the element, makes no difference to what the loop makes of
    it. *)
Theorem unknown_members_ignored result ms1 m ms2 :
  other_member m ->
  iteration fallback result (JObject (ms1 ++ m :: ms2))
  = iteration fallback result (JObject (ms1 ++ ms2)).
Proof.
  intros [Htext Htime]. rewrite !iteration_accept by done. unfold accept.
  by rewrite !lookup_member_other by done.
Qed.

End StoreCoverage.


(** * Properties of the views *)

Section ViewCoverage.

Variable fallback : jsstring -> option Z.
Variable toLocaleString : Date -> jsstring.

(** X8.  The action that clears the searches: when the removal succeeds
    nothing is left under the key and [popToRoot] is called once; when the
    removal fails the failure is thrown on, nothing stored has changed and
    [popToRoot] is not called; a row without [clearAll] does nothing. *)
Theorem handleClear_outcome key s :
  let r := handleClear (Some (clearAllRecentSearches key)) s in
  (next_fails (host s) = false ->
     r.1 = Ok () /\ storage (host r.2) !! key = None
     /\ popToRoot_calls r.2 = S (popToRoot_calls s))
  /\ (next_fails (host s) = true ->
        r.1 = Throw HostError /\ storage (host r.2) = storage (host s)
        /\ popToRoot_calls r.2 = popToRoot_calls s)
  /\ handleClear None s = (Ok (), s).
Proof.
  unfold handleClear, clearAllRecentSearches, clearRecentSearchesStore,
    removeLocalStorageItem. rewrite host_call_eq.
  split; [|split; [|done]]; intros Hnext; rewrite Hnext;
    cbn [fst snd host popToRoot_calls]; repeat split.
  - cbn [storage with_storage]. apply lookup_delete_eq.
  - apply storage_after_call.
Qed.

(** X9.  [RecentSearchesList] shows the list that is only loading exactly
    when it is loading and has no searches yet, which is never the case for
    what [getRecentSearches] resolved to.  Otherwise its section is never
    empty: it holds the row No Recent Searches alone when there is no
    search, and else one row for each search, in their order, with the text
    as title and an action that searches that text again at once. *)
Theorem list_rows recentSearches isLoading clearAll :
  (RecentSearchesList toLocaleString recentSearches isLoading clearAll
   = LoadingList (js "Loading")
   <-> isLoading = Some true /\ recentSearches = None)
  /\ (forall key w,
        exists result,
          (getRecentSearches fallback key w).1 = Ok result
          /\ RecentSearchesList toLocaleString result isLoading clearAll
             <> LoadingList (js "Loading"))
  /\ (forall loading throttle name rows,
        RecentSearchesList toLocaleString recentSearches isLoading clearAll
        = SectionList loading throttle name rows ->
        rows <> []
        /\ match recentSearches with
           | Some ((_ :: _) as qs) =>
               map title rows = map text qs
               /\ Forall2 (fun q row =>
                             exists others,
                               actions row
                               = {| action_title := js "Search Again";
                                    onAction := CallSetSearchText (text q) true |}
                                 :: others) qs rows
           | _ => map title rows = [js "No Recent Searches"]
           end).
Proof.
  split; [|split].
  - unfold RecentSearchesList. split.
    + destruct isLoading as [[]|], recentSearches; try done.
    + by intros [-> ->].
  - intros key w. rewrite getRecentSearches_eq. eexists. split; [done|].
    unfold RecentSearchesList. by destruct isLoading as [[]|].
  - intros loading throttle name rows. unfold RecentSearchesList.
    assert (Hrows : forall qs : list RecentSearch,
      map title (map (fun q => with_key (toLocaleString (timestamp q) ++ text q)
                                        (SearchItem toLocaleString q clearAll)) qs)
      = map text qs
      /\ Forall2 (fun q row =>
                    exists others,
                      actions row
                      = {| action_title := js "Search Again";
                           onAction := CallSetSearchText (text q) true |}
                        :: others) qs
           (map (fun q => with_key (toLocaleString (timestamp q) ++ text q)
                                   (SearchItem toLocaleString q clearAll)) qs)).
    { induction qs as [|q qs [IH1 IH2]]; [by split; [|constructor]|].
      cbn [map]. split; [by rewrite IH1|]. constructor; [|done].
      cbn. by eexists. }
    destruct recentSearches as [[|q qs]|];
      destruct isLoading as [[]|]; try done; intros [= <- <- <- <-];
      cbn [NoSearchItem option_list app];
      try (split; [done|reflexivity]);
      (split; [done|exact (Hrows (q :: qs))]).
Qed.

End ViewCoverage.

(** * Properties of the link of [AppPicker] *)

Section AppPickerCoverage.

Variable toLowerCase : jsstring -> jsstring.

Lemma strip_prefix_Some p : forall s rest,
  strip_prefix p s = Some rest <-> s = p ++ rest.
Proof.
  induction p as [|a p IH]; intros s rest; cbn [strip_prefix app].
  - split; [by intros [= ->]|by intros ->].
  - destruct s as [|b s]; [done|]. destruct (N.eqb_spec a b) as [->|Hne].
    + rewrite IH. split; [by intros ->|by intros [= ->]].
    + split; [done|]. intros [= -> _]. done.
Qed.

Lemma find_Some pattern s : forall before rest,
  find pattern s = Some (before, rest) ->
  s = before ++ pattern ++ rest
  /\ forall before' rest',
       s = before' ++ pattern ++ rest' -> (length before <= length before')%nat.
Proof.
  induction s as [|c s IH]; intros before rest; cbn [find].
  - destruct (strip_prefix pattern []) as [r|] eqn:E; [|done].
    intros [= <- <-]. apply strip_prefix_Some in E. split; [done|]. cbn. lia.
  - destruct (strip_prefix pattern (c :: s)) as [r|] eqn:E.
    + intros [= <- <-]. apply strip_prefix_Some in E. split; [done|]. cbn. lia.
    + destruct (find pattern s) as [[b r]|] eqn:Ef; [|done].
      intros [= <- <-]. destruct (IH _ _ eq_refl) as [-> Hmin]. split; [done|].
      intros [|c' before'] rest' Heq.
      * cbn [app] in Heq. apply strip_prefix_Some in Heq. congruence.
      * cbn [app] in Heq. injection Heq as -> Heq. apply Hmin in Heq. cbn. lia.
Qed.

Lemma find_None pattern s :
  find pattern s = None ->
  forall before rest, s <> before ++ pattern ++ rest.
Proof.
  induction s as [|c s IH]; cbn [find].
  - destruct (strip_prefix pattern []) as [r|] eqn:E; [done|]. intros _.
    intros [|c before] rest Heq; [|done].
    cbn [app] in Heq. apply strip_prefix_Some in Heq. congruence.
  - destruct (strip_prefix pattern (c :: s)) as [r|] eqn:E; [done|].
    destruct (find pattern s) as [[b r]|] eqn:Ef; [done|]. intros _.
    intros [|c' before] rest Heq.
    + cbn [app] in Heq. apply strip_prefix_Some in Heq. congruence.
    + cbn [app] in Heq. injection Heq as -> Heq. by eapply IH.
Qed.

Lemma find_first pattern s before rest :
  s = before ++ pattern ++ rest ->
  (forall before' rest',
      s = before' ++ pattern ++ rest' -> (length before <= length before')%nat) ->
  find pattern s = Some (before, rest).
Proof.
  intros Hs Hmin. destruct (find pattern s) as [[b r]|] eqn:E.
  - apply find_Some in E as [Hs' Hmin'].
    pose proof (Hmin _ _ Hs'). pose proof (Hmin' _ _ Hs).
    rewrite Hs in Hs'. apply app_inj_1 in Hs' as [-> Hrest]; [|lia].
    by apply app_inv_head in Hrest as ->.
  - by eapply find_None in E.
Qed.

Lemma GetSubstitution_plain matched before rest template : forall tail,
  36 ∉ template ->
  GetSubstitution matched before rest (template ++ tail)
  = template ++ GetSubstitution matched before rest tail.
Proof.
  induction template as [|c t IH]; intros tail Hno; [done|].
  apply not_elem_of_cons in Hno as [Hc Hno]. cbn [app GetSubstitution].
  destruct (N.eqb_spec c 36); [done|]. by rewrite IH.
Qed.

(** X10.  The link of [AppPicker] is the link of the preferences in lower
    case with the first {query} replaced: by the query as it is when the
    query holds no dollar sign, while a later {query} stays; a link
    without {query} is only put in lower case. *)
Theorem linkToOpen_first_occurrence link query :
  (forall before rest,
      36 ∉ query ->
      toLowerCase link = before ++ placeholder ++ rest ->
      (forall before' rest',
          toLowerCase link = before' ++ placeholder ++ rest' ->
          (length before <= length before')%nat) ->
      linkToOpen toLowerCase link query = before ++ query ++ rest)
  /\ ((forall before rest, toLowerCase link <> before ++ placeholder ++ rest) ->
      linkToOpen toLowerCase link query = toLowerCase link).
Proof.
  split.
  - intros before rest Hno Hs Hmin. unfold linkToOpen, String_replace.
    rewrite (find_first _ _ _ _ Hs Hmin).
    rewrite <- (app_nil_r query) at 1. by rewrite GetSubstitution_plain, app_nil_r.
  - intros Hnone. unfold linkToOpen, String_replace.
    destruct (find placeholder (toLowerCase link)) as [[b r]|] eqn:E; [|done].
    apply find_Some in E as [Hs _]. by apply Hnone in Hs.
Qed.

(** X11.  A dollar sign in the query is not always taken as it is: in the
    link, [$$] gives one dollar sign, [$&] gives {query} back, and the two
    other patterns give what is before {query} in the link and what is
    after it. *)
Theorem linkToOpen_dollar_patterns link q1 q2 before rest :
  36 ∉ q1 -> 36 ∉ q2 ->
  toLowerCase link = before ++ placeholder ++ rest ->
  (forall before' rest',
      toLowerCase link = before' ++ placeholder ++ rest' ->
      (length before <= length before')%nat) ->
  linkToOpen toLowerCase link (q1 ++ [36; 36] ++ q2) = before ++ (q1 ++ [36] ++ q2) ++ rest
  /\ linkToOpen toLowerCase link (q1 ++ [36; 38] ++ q2)
     = before ++ (q1 ++ placeholder ++ q2) ++ rest
  /\ linkToOpen toLowerCase link (q1 ++ [36; 96] ++ q2)
     = before ++ (q1 ++ before ++ q2) ++ rest
  /\ linkToOpen toLowerCase link (q1 ++ [36; 39] ++ q2)
     = before ++ (q1 ++ rest ++ q2) ++ rest.
Proof.
  intros H1 H2 Hs Hmin. unfold linkToOpen, String_replace.
  rewrite (find_first _ _ _ _ Hs Hmin).
  assert (Hq2 : GetSubstitution placeholder before rest q2 = q2).
  { rewrite <- (app_nil_r q2) at 1. by rewrite GetSubstitution_plain, app_nil_r. }
  repeat split; rewrite GetSubstitution_plain by done;
    cbn [app GetSubstitution N.eqb Pos.eqb]; by rewrite Hq2.
Qed.

End AppPickerCoverage.


Section PayloadCoverage.

Variable fallback : jsstring -> option Z.

(** X12.  What an append stores is JSON: an array of at most 20 objects,
    each with a text and a timestamp and nothing else, the new entry
    first. *)
Theorem stored_payload_shape key search w :
  next_fails (after_call w) = false ->
  exists payload fresh,
    storage (appendRecentSearchesStore fallback key search w).2 !! key
    = Some (LSString payload)
    /\ JSON_parse payload = Some (JArray (map json_of_search fresh))
    /\ head fresh = Some search
    /\ (length fresh <= 20)%nat.
Proof.
  intros Hset. rewrite appendRecentSearchesStore_eq. cbn [snd]. unfold appended.
  rewrite Hset. cbn [storage with_storage]. rewrite lookup_insert_eq.
  eexists _, _. split; [done|]. split; [apply JSON_parse_stringify|].
  split; [done|]. rewrite length_take. lia.
Qed.

End PayloadCoverage.

(** ** The further properties at concrete inputs *)

Section CoverageWitnesses.

Local Open Scope Z_scope.

Lemma clear_then_load_witness :
  storage (clearRecentSearchesStore (js "k")
             (world_with (js "k") (LSString payload_C1) 0 [])).2 !! js "k"
  = None.
Proof.
  apply (clear_then_load iso_only (js "k")
           (world_with (js "k") (LSString payload_C1) 0 [])).
  reflexivity.
Defined.

Lemma other_keys_untouched_witness :
  storage (clearRecentSearchesStore (js "k")
             (world_with (js "other") (LSString payload_C1) 0 [])).2 !! js "other"
  = storage (world_with (js "other") (LSString payload_C1) 0 []) !! js "other".
Proof.
  apply (other_keys_untouched iso_only (js "k") (js "other")
           {| text := js "a"; timestamp := new_Date_now 0 |} []
           (world_with (js "other") (LSString payload_C1) 0 [])).
  discriminate.
Defined.

Lemma set_then_load_witness :
  (getRecentSearches iso_only (js "k")
     (setRecentSearches (js "k")
        [{| text := js "a"; timestamp := new_Date_now 5 |};
         {| text := js "b"; timestamp := new_Date_now 3 |}]
        (empty_world 0 [])).2).1
  = Ok (Some [{| text := js "a"; timestamp := new_Date_now 5 |};
              {| text := js "b"; timestamp := new_Date_now 3 |}]).
Proof.
  destruct (set_then_load iso_only (js "k")
              [{| text := js "a"; timestamp := new_Date_now 5 |};
               {| text := js "b"; timestamp := new_Date_now 3 |}]
              (empty_world 0 [])) as (_ & _ & H).
  - reflexivity.
  - reflexivity.
  - repeat (apply List.Forall_cons; [vm_compute; split; discriminate|]).
    apply List.Forall_nil.
  - apply H.
    repeat (apply List.Forall_cons;
            [split; [split; [discriminate|vm_compute; split; discriminate]|reflexivity]|]).
    apply List.Forall_nil.
Defined.

Lemma append_over_unreadable_witness :
  storage (appendRecentSearchesStore iso_only (js "k")
             {| text := js "b"; timestamp := new_Date_now 0 |}
             (world_with (js "k") (LSString payload_with_null) 0 [])).2 !! js "k"
  = Some (LSString (JSON_stringify [{| text := js "b"; timestamp := new_Date_now 0 |}])).
Proof.
  apply (append_over_unreadable iso_only (js "k")
           {| text := js "b"; timestamp := new_Date_now 0 |}
           (world_with (js "k") (LSString payload_with_null) 0 [])).
  - right. right.
    exists payload_with_null,
      [JObject [(js "text", JString (js "a")); (js "timestamp", JString (js "2020-01-01"))];
       JNull].
    split; [vm_compute; reflexivity|]. split; [vm_compute; reflexivity|].
    apply elem_of_cons. right. apply elem_of_cons. by left.
  - reflexivity.
Defined.

Lemma appends_below_capacity_witness :
  exists result,
    ((append_all iso_only (js "k") [js "a"; js "b"; js "c"]
        ≫= fun _ => getRecentSearches iso_only (js "k")) (empty_world 0 [])).1
    = Ok (Some result)
    /\ map text result = [js "c"; js "b"; js "a"]
    /\ length result = 3%nat.
Proof.
  apply (appends_below_capacity iso_only (js "k") [js "a"; js "b"; js "c"]
           (empty_world 0 [])).
  - vm_compute. lia.
  - repeat constructor; discriminate.
  - reflexivity.
  - reflexivity.
  - reflexivity.
Defined.

Lemma most_recent_first_witness :
  recent_first
    (now (append_all iso_only (js "k") [js "a"; js "b"]
            (empty_world 0 [{| elapsed := 5; fails := false |}])).2)
    (loaded iso_only (js "k")
       (append_all iso_only (js "k") [js "a"; js "b"]
          (empty_world 0 [{| elapsed := 5; fails := false |}])).2).
Proof.
  apply (most_recent_first iso_only (js "k") [js "a"; js "b"]
           (empty_world 0 [{| elapsed := 5; fails := false |}])).
  - repeat constructor; discriminate.
  - reflexivity.
  - reflexivity.
  - split; constructor.
Defined.

Lemma unknown_members_ignored_witness :
  iteration iso_only []
    (JObject [(js "text", JString (js "a")); (js "id", JNumber 7 0);
              (js "timestamp", JString (js "2020-01-01"))])
  = iteration iso_only []
      (JObject [(js "text", JString (js "a"));
                (js "timestamp", JString (js "2020-01-01"))]).
Proof.
  apply (unknown_members_ignored iso_only [] [(js "text", JString (js "a"))]
           (js "id", JNumber 7 0) [(js "timestamp", JString (js "2020-01-01"))]).
  split; discriminate.
Defined.

Lemma linkToOpen_first_occurrence_witness :
  linkToOpen ascii_lower (js "HTTPS://Example.com/?q={Query}&again={query}") (js "rocq")
  = js "https://example.com/?q=rocq&again={query}".
Proof.
  destruct (linkToOpen_first_occurrence ascii_lower
              (js "HTTPS://Example.com/?q={Query}&again={query}") (js "rocq"))
    as [H _].
  apply (H (js "https://example.com/?q=") (js "&again={query}")).
  - vm_compute. intros Hin. repeat (apply elem_of_cons in Hin as [Hin|Hin]; [discriminate|]).
    by apply not_elem_of_nil in Hin.
  - vm_compute; reflexivity.
  - apply (find_Some placeholder
             (ascii_lower (js "HTTPS://Example.com/?q={Query}&again={query}"))
             (js "https://example.com/?q=") (js "&again={query}")).
    vm_compute; reflexivity.
Defined.

Lemma linkToOpen_dollar_patterns_witness :
  linkToOpen ascii_lower (js "https://x/?q={query}") (js "a$&b")
  = js "https://x/?q=a{query}b".
Proof.
  destruct (linkToOpen_dollar_patterns ascii_lower (js "https://x/?q={query}")
              (js "a") (js "b") (js "https://x/?q=") [])
    as (_ & H & _).
  - intros Hin. apply elem_of_cons in Hin as [Hin|Hin]; [discriminate|].
    by apply not_elem_of_nil in Hin.
  - intros Hin. apply elem_of_cons in Hin as [Hin|Hin]; [discriminate|].
    by apply not_elem_of_nil in Hin.
  - vm_compute; reflexivity.
  - apply (find_Some placeholder (ascii_lower (js "https://x/?q={query}"))
             (js "https://x/?q=") []).
    vm_compute; reflexivity.
  - exact H.
Defined.

Lemma stored_payload_shape_witness :
  exists payload fresh,
    storage (appendRecentSearchesStore iso_only (js "k")
               {| text := js "b"; timestamp := new_Date_now 0 |}
               (empty_world 0 [])).2 !! js "k"
    = Some (LSString payload)
    /\ JSON_parse payload = Some (JArray (map json_of_search fresh))
    /\ head fresh = Some {| text := js "b"; timestamp := new_Date_now 0 |}
    /\ (length fresh <= 20)%nat.
Proof.
  apply (stored_payload_shape iso_only (js "k")
           {| text := js "b"; timestamp := new_Date_now 0 |} (empty_world 0 [])).
  reflexivity.
Defined.

End CoverageWitnesses.
